(** * qujax observables: expectation values, bitstring codec and sampling

    A shallow embedding of [qujax/observable.py].  Arrays are the row-major
    [ndarray]s of numpy/jax: a shape and the flat list of entries.  Integer
    arrays have jax's default integer type, 32-bit two's complement: their
    entries are integers ([Z]) in [[-2^31, 2^31)], arithmetic on them wraps
    around ([wrap32]), and a python integer outside the type is refused
    when it is made into an array.  Python integers themselves ([nbits],
    shapes, sizes) are unbounded.  The scalars of statetensors and gate
    tensors are kept abstract (see [Scalars]), so no rounding is modelled
    there; the two places where the module computes a floating-point
    logarithm are described where they are defined.  Memory is not
    modelled: an array is returned whatever its size.  The library
    functions [tensordot], [moveaxis], [kron], [reshape], [squeeze] and
    [arange] follow their numpy semantics. *)

From stdpp Require Import base numbers list option strings pretty.

(** ** Row-major n-dimensional arrays *)

Record ndarray (A : Type) := NDArray { shape : list nat; data : list A }.
Arguments NDArray {A} shape data.
Arguments shape {A} _.
Arguments data {A} _.

(** [a.ndim] and [a.size]. *)
Definition ndim {A} (a : ndarray A) : nat := length (shape a).
Definition size_of (s : list nat) : nat := foldr Nat.mul 1 s.
Definition size {A} (a : ndarray A) : nat := size_of (shape a).

(** A well-formed array stores exactly [size] entries. *)
Definition wf {A} (a : ndarray A) : Prop := length (data a) = size a.

(** All multi-indices of a shape, in row-major (last axis fastest) order. *)
Fixpoint indices (s : list nat) : list (list nat) :=
  match s with
  | [] => [[]]
  | d :: s' => i ← seq 0 d; (cons i) <$> indices s'
  end.

(** Flat offset of a multi-index. *)
Fixpoint ravel (s idx : list nat) : nat :=
  match s, idx with
  | _ :: s', i :: idx' => i * size_of s' + ravel s' idx'
  | _, _ => 0
  end.

Definition in_bounds (idx s : list nat) : Prop := Forall2 lt idx s.

(** [a[idx]], with [d] read outside the stored entries. *)
Definition at_index {A} (d : A) (a : ndarray A) (idx : list nat) : A :=
  nth (ravel (shape a) idx) (data a) d.

(** The array of shape [s] whose entry at [idx] is [f idx]. *)
Definition build {A} (s : list nat) (f : list nat → A) : ndarray A :=
  NDArray s (f <$> indices s).

(** [a.flatten()], [a.reshape(s)] (an error unless the sizes agree),
    [jnp.squeeze], [jnp.atleast_1d], [jnp.atleast_2d]. *)
Definition flatten {A} (a : ndarray A) : list A := data a.

Definition reshape {A} (a : ndarray A) (s : list nat) : option (ndarray A) :=
  if decide (size_of s = size a) then Some (NDArray s (data a)) else None.

Definition squeeze {A} (a : ndarray A) : ndarray A :=
  NDArray (filter (λ d, d ≠ 1) (shape a)) (data a).

Definition atleast_1d {A} (a : ndarray A) : ndarray A :=
  match shape a with
  | [] => NDArray [1] (data a)
  | _ => a
  end.

Definition atleast_2d {A} (a : ndarray A) : ndarray A :=
  match shape a with
  | [] => NDArray [1; 1] (data a)
  | [n] => NDArray [1; n] (data a)
  | _ => a
  end.

(** [jnp.arange(start, stop, step)] on integers ([step] is never [0] in the
    callers below). *)
Definition arange (start stop step : Z) : list Z :=
  let n := if (0 <? step)%Z then ((stop - start + step - 1) / step)%Z
           else if (step <? 0)%Z then ((start - stop - step - 1) / (- step))%Z
           else 0%Z in
  (λ i : nat, (start + Z.of_nat i * step)%Z) <$> seq 0 (Z.to_nat n).

(** A python scalar as a zero-dimensional array. *)
Definition scalar {A} (v : A) : ndarray A := NDArray [] [v].

(** ** Bitstring / integer codec *)

(** The values of the 32-bit integer type, and the value that arithmetic in
    that type gives when the exact result is [z]. *)
Definition int32 (z : Z) : Prop := (- 2 ^ 31 ≤ z < 2 ^ 31)%Z.

Definition wrap32 (z : Z) : Z := ((z + 2 ^ 31) mod 2 ^ 32 - 2 ^ 31)%Z.

#[export] Instance int32_dec (z : Z) : Decision (int32 z) :=
  (_ : Decision ((- 2 ^ 31 ≤ z)%Z ∧ (z < 2 ^ 31)%Z)).

(** A python integer, or an array of the integer type, as an array of the
    integer type: an integer outside the type raises (OverflowError). *)
Definition as_int32 (a : ndarray Z) : option (ndarray Z) :=
  if decide (Forall int32 (data a)) then Some a else None.

(** [x << s] in the integer type: the low 32 bits of the shifted value, and
    zero when the shift amount is not below 32. *)
Definition shl32 (x s : Z) : Z :=
  if decide (0 ≤ s < 32)%Z then wrap32 (Z.shiftl x s) else 0%Z.

(** The value [jnp.ceil(jnp.log2(m) + 1e-5)] for an integer [m].
    [jnp.log2(0)] is [-inf], which [+ 1e-5] and [jnp.ceil] leave unchanged,
    and the logarithm of a negative number is not a number.  For [m > 0]
    the real-number operations are taken exactly: the result is the least
    integer [k] with [log2 m + 1/100000 <= k]; with [j] the least integer
    such that [m <= 2^j] it is [j] or [j + 1], and [log2 m + 1/100000 <= j]
    holds exactly when [2 * m^100000 <= 2^(100000*j)].  The library computes
    in single precision, which can round [log2 m + 1e-5] across an integer
    when it is within a few units in the last place of one; the results
    below that use this function say for which [m] they are stated. *)
Inductive fceil := NegInf | NotANumber | Finite (k : Z).

Definition ceil_log2_eps (m : Z) : fceil :=
  if (m <? 0)%Z then NotANumber
  else if (m =? 0)%Z then NegInf
  else let j := Z.log2_up m in
       Finite (if (2 * m ^ 100000 <=? 2 ^ (100000 * j))%Z then j else (j + 1)%Z).

(** [.astype(int)]: the conversion to the integer type saturates, so
    [-inf] becomes its least value, and what is not a number becomes 0; a
    finite value is here the logarithm of an entry, an integer of the type. *)
Definition astype_int (x : fceil) : Z :=
  match x with
  | NegInf => (- 2 ^ 31)%Z
  | NotANumber => 0%Z
  | Finite k => k
  end.

(** [integers.max()]; an error on an empty array. *)
Definition array_max (l : list Z) : option Z :=
  match l with
  | [] => None
  | x :: l' => Some (foldl Z.max x l')
  end.

Definition bool_to_int (b : bool) : Z := if b then 1%Z else 0%Z.

(** The shift amounts [jnp.arange(nbits - 1, -1, -1)], one for each column
    of the result.  A given [nbits] is a python integer, so [nbits - 1] is
    exact; an inferred [nbits] is a value of the integer type, so
    [nbits - 1] wraps around. *)
Definition shift_amounts (integers : ndarray Z) (nbits : option Z)
  : option (list Z) :=
  start ← match nbits with
          | Some n => Some (n - 1)%Z
          | None => mx ← array_max (data integers);
                    Some (wrap32 (astype_int (ceil_log2_eps mx) - 1))
          end;
  Some (arange start (-1) (-1)).

(** [integers_to_bitstrings(integers, nbits)], for [integers] a python
    integer or a one-dimensional array of the integer type.
    [integers[:, None] & (1 << arange(...))] is the row-major
    [(len, nbits)] table of masked values. *)
Definition integers_to_bitstrings (integers : ndarray Z) (nbits : option Z)
  : option (ndarray Z) :=
  integers ← as_int32 (atleast_1d integers);
  amounts ← shift_amounts integers nbits;
  let masks := shl32 1 <$> amounts in
  Some (squeeze (NDArray [size integers; length masks]
                   (v ← data integers;
                    (λ mk, bool_to_int (0 <? Z.land v mk)%Z) <$> masks))).

(** The [r] rows of length [n] of a flat table. *)
Definition rows {A} (r n : nat) (l : list A) : list (list A) :=
  (λ i, take n (drop (i * n) l)) <$> seq 0 r.

(** [row.dot(convarr)] in the integer type: every product and every sum
    wraps around. *)
Definition dot (row convarr : list Z) : Z :=
  foldl (λ acc xy, wrap32 (acc + wrap32 (xy.1 * xy.2)))%Z 0%Z (zip row convarr).

(** [x ** e] on arrays of the integer type.  jax.numpy computes an integer
    power by binary exponentiation over the six low bits of the exponent
    (an exact power that needs more bits would overflow anyway), so an
    exponent of 64 or more counts modulo 64; every product wraps around,
    and [0 ** e] is 0 for [e] other than 0. *)
Definition pow32 (x e : Z) : Z :=
  if decide (x = 0 ∧ e ≠ 0)%Z then 0%Z else wrap32 (x ^ (e mod 64)).

(** [convarr = 2 ** jnp.arange(n - 1, -1, -1)] for rows of length [n]. *)
Definition convarr (n : nat) : list Z :=
  pow32 2 <$> arange (Z.of_nat n - 1) (-1) (-1).

(** [bitstrings_to_integers(bitstrings)], for [bitstrings] an array of the
    integer type. *)
Definition bitstrings_to_integers (bitstrings : ndarray Z) : ndarray Z :=
  let bitstrings := atleast_2d bitstrings in
  let n := List.last (shape bitstrings) 0 in
  let lead := removelast (shape bitstrings) in
  squeeze (NDArray lead ((λ row, dot row (convarr n))
                           <$> rows (size_of lead) n (data bitstrings))).

(** Reference notions the codec is compared with: the [n] big-endian binary
    digits of [v], the big-endian value of a digit row, and exact sums. *)
Definition Zsum (l : list Z) : Z := foldr Z.add 0%Z l.

Definition be_digits (n : nat) (v : Z) : list Z :=
  (λ i : nat, (v / 2 ^ Z.of_nat (n - 1 - i)) mod 2)%Z <$> seq 0 n.

Definition be_value (row : list Z) : Z := foldl (λ acc b, 2 * acc + b)%Z 0%Z row.

(** ** Axis bookkeeping shared by [tensordot] and [moveaxis] *)

(** A python axis number, negative ones counting from the end. *)
Definition norm_axis (nd : nat) (a : Z) : option nat :=
  if decide (0 ≤ a < Z.of_nat nd)%Z then Some (Z.to_nat a)
  else if decide (- Z.of_nat nd ≤ a < 0)%Z then Some (Z.to_nat (a + Z.of_nat nd))
  else None.

Definition norm_axes (nd : nat) (axes : list Z) : option (list nat) :=
  mapM (norm_axis nd) axes.

(** The entries of [l] at the positions [ps], and [base] with the positions
    [ps] overwritten by [vs]. *)
Definition gather (l : list nat) (ps : list nat) : list nat :=
  (λ p, nth p l 0) <$> ps.

Fixpoint scatter (ps vs base : list nat) : list nat :=
  match ps, vs with
  | p :: ps', v :: vs' => <[p := v]> (scatter ps' vs' base)
  | _, _ => base
  end.

(** The axes of a rank-[n] array that are not in [ps], ascending. *)
Definition complement (n : nat) (ps : list nat) : list nat :=
  filter (λ p, p ∉ ps) (seq 0 n).

(** [jnp.moveaxis(a, source, destination)]: axis [source[i]] of [a] becomes
    axis [destination[i]] of the result, the other axes keep their order. *)
Definition moveaxis {A} (d : A) (a : ndarray A) (source destination : list Z)
  : option (ndarray A) :=
  src ← norm_axes (ndim a) source;
  dst ← norm_axes (ndim a) destination;
  if decide (length src = length dst ∧ NoDup src ∧ NoDup dst) then
    let rest_src := complement (ndim a) src in
    let rest_dst := complement (ndim a) dst in
    let zeros := replicate (ndim a) 0 in
    Some (build
            (scatter dst (gather (shape a) src)
               (scatter rest_dst (gather (shape a) rest_src) zeros))
            (λ idx, at_index d a
                      (scatter src (gather idx dst)
                         (scatter rest_src (gather idx rest_dst) zeros))))
  else None.

(** numpy broadcasting: two shapes are aligned at their last axis; paired
    dimensions must be equal or one of them 1, and the longer shape gives
    the leading dimensions.  [broadcast_rev] works on reversed shapes. *)
Fixpoint broadcast_rev (s1 s2 : list nat) : option (list nat) :=
  match s1, s2 with
  | [], _ => Some s2
  | _, [] => Some s1
  | d1 :: s1', d2 :: s2' =>
      d ← (if decide (d1 = d2) then Some d1
           else if decide (d1 = 1) then Some d2
           else if decide (d2 = 1) then Some d1
           else None);
      s ← broadcast_rev s1' s2';
      Some (d :: s)
  end.

Definition broadcast_shapes (s1 s2 : list nat) : option (list nat) :=
  reverse <$> broadcast_rev (reverse s1) (reverse s2).

(** The index read in an array of shape [s] for the index [idx] of the
    broadcast result: the trailing components, with 0 on the axes of
    dimension 1. *)
Definition broadcast_index (s idx : list nat) : list nat :=
  zip_with (λ d i, if decide (d = 1) then 0 else i) s
    (drop (length idx - length s) idx).

(** ** Scalars

    The entries of statetensors and gate tensors ([K], complex) and the
    expectation values and probabilities ([R], real), with the operations the
    module uses on them. *)
Class Scalars (K R : Type) := {
  czero : K;
  cadd : K → K → K;
  cmul : K → K → K;
  conj : K → K;
  real : K → R;
  cabs : K → R;
  rzero : R;
  radd : R → R → R;
  rmul : R → R → R
}.

(** A gate of an observable term: a name looked up in [qujax.gates], or an
    array. *)
Inductive gate_spec (K : Type) :=
  | GateName (name : string)
  | GateArray (arr : ndarray K).
Arguments GateName {K} name.
Arguments GateArray {K} arr.

Section Observable.
Context {K R : Type} `{!Scalars K R}.

Definition csum (l : list K) : K := foldl cadd czero l.

Definition conjugate (a : ndarray K) : ndarray K :=
  NDArray (shape a) (conj <$> data a).

(** [jnp.tensordot(a, b, axes=(axes_a, axes_b))]: the axes [axes_a] of [a]
    are summed against the axes [axes_b] of [b]; the result carries the
    remaining axes of [a] followed by the remaining axes of [b]. *)
Definition tensordot (a b : ndarray K) (axes_a axes_b : list Z)
  : option (ndarray K) :=
  ax_a ← norm_axes (ndim a) axes_a;
  ax_b ← norm_axes (ndim b) axes_b;
  if decide (gather (shape a) ax_a = gather (shape b) ax_b
             ∧ NoDup ax_a ∧ NoDup ax_b) then
    let free_a := complement (ndim a) ax_a in
    let free_b := complement (ndim b) ax_b in
    Some (build
            (gather (shape a) free_a ++ gather (shape b) free_b)
            (λ idx,
               let i := take (length free_a) idx in
               let j := drop (length free_a) idx in
               csum ((λ c,
                        cmul
                          (at_index czero a
                             (scatter free_a i (scatter ax_a c (replicate (ndim a) 0))))
                          (at_index czero b
                             (scatter free_b j (scatter ax_b c (replicate (ndim b) 0)))))
                       <$> indices (gather (shape a) ax_a))))
  else None.

(** [jnp.kron(a, b)]: the shorter shape is padded with leading ones, and
    entry [idx] is [a[idx / shape b] * b[idx mod shape b]], axis by axis. *)
Definition pad_shape (n : nat) (s : list nat) : list nat :=
  replicate (n - length s) 1 ++ s.

Definition kron (a b : ndarray K) : ndarray K :=
  let nd := ndim a `max` ndim b in
  let sa := pad_shape nd (shape a) in
  let sb := pad_shape nd (shape b) in
  build (zip_with Nat.mul sa sb)
    (λ idx, cmul (at_index czero (NDArray sa (data a)) (zip_with Nat.div idx sb))
                 (at_index czero (NDArray sb (data b)) (zip_with Nat.modulo idx sb))).

(** The body of the closure returned by
    [_statetensor_to_single_expectation_func(gate_tensor, qubit_inds)];
    [statetensor_new] is its local variable after the [moveaxis]. *)
Definition statetensor_new (gate_tensor : ndarray K) (qubit_inds : list nat)
    (statetensor : ndarray K) : option (ndarray K) :=
  let k := Z.of_nat (length qubit_inds) in
  let q := Z.of_nat <$> qubit_inds in
  t ← tensordot gate_tensor statetensor (arange (- k) 0 1) q;
  moveaxis czero t (arange 0 k 1) q.

(** [a.real], entry by entry. *)
Definition real_part (a : ndarray K) : ndarray R :=
  NDArray (shape a) (real <$> data a).

(** The value returned is the array that the last [tensordot] gives: a
    zero-dimensional one when the gate tensor has rank [2 * len(qubit_inds)]
    (every axis of [statetensor_new] is then summed). *)
Definition statetensor_to_single_expectation (gate_tensor : ndarray K)
    (qubit_inds : list nat) (statetensor : ndarray K) : option (ndarray R) :=
  new ← statetensor_new gate_tensor qubit_inds statetensor;
  let axes := arange 0 (Z.of_nat (ndim statetensor)) 1 in
  res ← tensordot (conjugate statetensor) new axes axes;
  Some (real_part res).

(** [coeff * e] for a scalar [coeff], and [out + x] on arrays, which
    broadcasts and raises when the shapes do not broadcast. *)
Definition scale (coeff : R) (e : ndarray R) : ndarray R :=
  NDArray (shape e) (rmul coeff <$> data e).

Definition add_arrays (a b : ndarray R) : option (ndarray R) :=
  s ← broadcast_shapes (shape a) (shape b);
  Some (build s (λ idx, radd (at_index rzero a (broadcast_index (shape a) idx))
                             (at_index rzero b (broadcast_index (shape b) idx)))).

Section WithGates.
(** [int(jnp.log2(n))] for an array size [n >= 1]: the library's
    single-precision logarithm, truncated towards zero.  How the library
    rounds is not fixed by this module and the value need not be the exact
    logarithm, not even at a power of two, so the function is a parameter;
    what a result needs of it is stated where it is needed. *)
Variable log2_trunc : nat → nat.

(** The table [gates.__dict__] of named gates. *)
Variable gates : string → option (ndarray K).

(** [jnp.log2(0)] is [-inf], which [int] refuses. *)
Definition int_log2 (n : nat) : option nat :=
  if decide (n = 0) then None else Some (log2_trunc n).

(** [gates.__dict__[gate] if isinstance(gate, str) else gate] *)
Definition gate_array (gate : gate_spec K) : option (ndarray K) :=
  match gate with
  | GateName name => gates name
  | GateArray arr => Some arr
  end.

(** [gate_arr.reshape((2,) * int(jnp.log2(gate_arr.size)))] *)
Definition as_qubit_tensor (gate_arr : ndarray K) : option (ndarray K) :=
  n ← int_log2 (size gate_arr);
  reshape gate_arr (replicate n 2).

Definition get_gate_tensor (gate_seq : list (gate_spec K)) : option (ndarray K) :=
  single_gate_arrs ← mapM gate_array gate_seq;
  single_gate_arrs ← mapM as_qubit_tensor single_gate_arrs;
  match single_gate_arrs with
  | [] => None
  | g0 :: rest =>
      as_qubit_tensor (foldl kron g0 rest)
  end.

(** [get_statetensor_to_expectation_func]: the list of single-term
    functions is built when the function is made; the returned closure
    loops over [zip(coefficients, apply_gate_funcs)], starting from the
    python number [0] (a zero-dimensional value). *)
Definition statetensor_to_expectation_func (coefficients : list R)
    (apply_gate_funcs : list (ndarray K → option (ndarray R)))
    (statetensor : ndarray K) : option (ndarray R) :=
  foldl (λ out cf, out ← out;
                   e ← cf.2 statetensor;
                   add_arrays out (scale cf.1 e))
        (Some (scalar rzero)) (zip coefficients apply_gate_funcs).

Definition get_statetensor_to_expectation_func
    (gate_seq_seq : list (list (gate_spec K)))
    (qubits_seq_seq : list (list nat)) (coefficients : list R)
  : option (ndarray K → option (ndarray R)) :=
  apply_gate_funcs ←
    mapM (λ gq, g ← get_gate_tensor gq.1;
                Some (statetensor_to_single_expectation g gq.2))
         (zip gate_seq_seq qubits_seq_seq);
  Some (statetensor_to_expectation_func coefficients apply_gate_funcs).
End WithGates.

Section WithRandom.
(** [jax.random.choice(key, a, shape=(n,), p=p)]: a function of the key
    it is given and of its other arguments.  It returns an array of the
    type of [a], the integer type: what the parameter gives is read in
    that type. *)
Context {Key : Type}.
Variable random_choice : Key → list Z → nat → list R → list Z.

Definition sample_integers (random_key : Key) (statetensor : ndarray K)
    (n_samps : nat) : ndarray Z :=
  let sv_probs := (λ x, rmul (cabs x) (cabs x)) <$> flatten statetensor in
  let sampled_inds :=
    random_choice random_key (arange 0 (Z.of_nat (size statetensor)) 1)
      n_samps sv_probs in
  NDArray [n_samps] (wrap32 <$> sampled_inds).

Definition sample_bitstrings (random_key : Key) (statetensor : ndarray K)
    (n_samps : nat) : option (ndarray Z) :=
  integers_to_bitstrings (sample_integers random_key statetensor n_samps)
    (Some (Z.of_nat (ndim statetensor))).
End WithRandom.
End Observable.

(** ** Reference formulas

    What the claims say the code computes, written directly on entries. *)
Section Reference.
Context {K R : Type} `{!Scalars K R}.

(** Entry [b] of [G] applied to [psi] on the qubits [q]: the last axes of
    [G] are summed against the axes [q] of [psi], the first axes of [G]
    are read at the bits of [b] at [q]. *)
Definition spec_gate_applied (G : ndarray K) (q : list nat) (psi : ndarray K)
    (b : list nat) : K :=
  csum ((λ c, cmul (at_index czero G (gather b q ++ c))
                   (at_index czero psi (scatter q c b)))
          <$> indices (replicate (length q) 2)).

(** [Re <psi| G |psi>] *)
Definition spec_expectation (G : ndarray K) (q : list nat) (psi : ndarray K) : R :=
  real (csum ((λ b, cmul (conj (at_index czero psi b)) (spec_gate_applied G q psi b))
                <$> indices (shape psi))).

(** The entry [(o_j, i_j)] of each matrix, and their product taken from
    the left. *)
Definition spec_entries (mats : list (ndarray K)) (o i : list nat) : list K :=
  (λ e, at_index czero e.1 [e.2.1; e.2.2]) <$> zip mats (zip o i).

Definition cprod (l : list K) : K :=
  match l with
  | [] => czero
  | x :: l' => foldl cmul x l'
  end.

(** The sum of [coefficients[i] * vals[i]], added in order from zero. *)
Definition weighted_sum (coefficients vals : list R) : R :=
  foldl (λ out ce, radd out (rmul ce.1 ce.2)) rzero (zip coefficients vals).
End Reference.

(** ** A concrete instance: Gaussian integers

    Exact complex arithmetic on integer entries, used to run the definitions
    on small inputs.  [cabs] is exact on the entries it is applied to below
    (those whose modulus is an integer). *)
Record gauss := Gauss { gre : Z; gim : Z }.

Definition gauss_add (x y : gauss) : gauss :=
  Gauss (gre x + gre y) (gim x + gim y).
Definition gauss_mul (x y : gauss) : gauss :=
  Gauss (gre x * gre y - gim x * gim y) (gre x * gim y + gim x * gre y).
Definition gauss_conj (x : gauss) : gauss := Gauss (gre x) (- gim x).
Definition gauss_abs (x : gauss) : Z := Z.sqrt (gre x * gre x + gim x * gim x).

#[export] Instance gauss_scalars : Scalars gauss Z := {|
  czero := Gauss 0 0;
  cadd := gauss_add;
  cmul := gauss_mul;
  conj := gauss_conj;
  real := gre;
  cabs := gauss_abs;
  rzero := 0%Z;
  radd := Z.add;
  rmul := Z.mul
|}.

Definition gint (z : Z) : gauss := Gauss z 0.

(** The Pauli matrices of [qujax.gates], and the names bound to them. *)
Definition pauli_X : ndarray gauss := NDArray [2; 2] (gint <$> [0; 1; 1; 0]%Z).
Definition pauli_Y : ndarray gauss :=
  NDArray [2; 2] [Gauss 0 0; Gauss 0 (-1); Gauss 0 1; Gauss 0 0].
Definition pauli_Z : ndarray gauss := NDArray [2; 2] (gint <$> [1; 0; 0; -1]%Z).

Definition pauli_gates (name : string) : option (ndarray gauss) :=
  if decide (name = "X") then Some pauli_X
  else if decide (name = "Y") then Some pauli_Y
  else if decide (name = "Z") then Some pauli_Z
  else None.

(** Unnormalised two-qubit states: [|00> + |11>] and [|01>]. *)
Definition bell : ndarray gauss := NDArray [2; 2] (gint <$> [1; 0; 0; 1]%Z).
Definition ket01 : ndarray gauss := NDArray [2; 2] (gint <$> [0; 1; 0; 0]%Z).

(** A sampler that always draws the last outcome. *)
Definition last_outcome (key : unit) (a : list Z) (n : nat) (p : list Z) : list Z :=
  replicate n (List.last a 0%Z).

(** A logarithm without rounding error, to run the definitions on the
    examples (their arrays have 4 and 16 entries). *)
Definition exact_log2 : nat → nat := Nat.log2.

(** A logarithm that comes out one short at 16, as a rounded logarithm can
    at a power of two. *)
Definition short_log2 (n : nat) : nat :=
  if decide (n = 16) then 3 else Nat.log2 n.

(** Gate tensors and terms used in the examples. *)
Definition gate_ZZ : ndarray gauss :=
  Eval vm_compute in
    default pauli_Z
      (get_gate_tensor exact_log2 pauli_gates [GateName "Z"; GateName "Z"]).
Definition gate_ZX : ndarray gauss :=
  Eval vm_compute in
    default pauli_Z
      (get_gate_tensor exact_log2 pauli_gates [GateName "Z"; GateName "X"]).

Definition terms_ex : list (list (gate_spec gauss)) :=
  [[GateName "Z"; GateName "Z"]; [GateName "Z"]].

(** A binary digit. *)
Definition binary (b : Z) : Prop := b = 0%Z ∨ b = 1%Z.

(** The identity on [k] qubits as a gate tensor of rank [2k]. *)
Definition identity_tensor {K} (zero one : K) (k : nat) : ndarray K :=
  build (replicate (2 * k) 2)
    (λ idx, if decide (take k idx = drop k idx) then one else zero).

(** ** [qujax/circuit_tools.py]

    Python strings are lists of Unicode code points, python integers are
    [Z], and a call either returns or raises. *)
Abbreviation pystr := (list N).

(** An ASCII literal. *)
Definition lit (s : string) : pystr := Ascii.N_of_ascii <$> String.list_ascii_of_string s.

Definition dash : N := 45%N.
Definition space : N := 32%N.
(** ['◯'], U+25EF. *)
Definition circle : N := 9711%N.

Inductive exn := TypeError | ValueError | IndexError.

Inductive result (A : Type) :=
  | Ok (a : A)
  | Raise (e : exn).
Arguments Ok {A} a.
Arguments Raise {A} e.

#[export] Instance result_bind : MBind result :=
  λ A B f m, match m with
             | Ok a => f a
             | Raise e => Raise e
             end.

(** [for x in l: s = body(s, x)] *)
Fixpoint for_each {S A} (l : list A) (body : S → A → result S) (s : S) : result S :=
  match l with
  | [] => Ok s
  | x :: l' => s' ← body s x; for_each l' body s'
  end.

(** [[f(x) for x in l]] *)
Fixpoint comprehension {A B} (f : A → result B) (l : list A) : result (list B) :=
  match l with
  | [] => Ok []
  | x :: l' => y ← f x; ys ← comprehension f l'; Ok (y :: ys)
  end.

(** [max(l)] and [min(l)] of a list of integers; [ValueError] when empty. *)
Definition py_max (l : list Z) : result Z :=
  match l with
  | [] => Raise ValueError
  | x :: l' => Ok (foldl Z.max x l')
  end.

Definition py_min (l : list Z) : result Z :=
  match l with
  | [] => Raise ValueError
  | x :: l' => Ok (foldl Z.min x l')
  end.

(** [l[i]] and [l[i] = v], negative indices counting from the end;
    [IndexError] outside the list. *)
Definition py_position {A} (l : list A) (i : Z) : result nat :=
  let j := if (i <? 0)%Z then (i + Z.of_nat (length l))%Z else i in
  if decide (0 ≤ j < Z.of_nat (length l))%Z then Ok (Z.to_nat j) else Raise IndexError.

Definition py_getitem {A} (l : list A) (i : Z) : result A :=
  j ← py_position l i;
  match l !! j with
  | Some x => Ok x
  | None => Raise IndexError
  end.

Definition py_setitem {A} (l : list A) (i : Z) (v : A) : result (list A) :=
  j ← py_position l i; Ok (<[j := v]> l).

(** [range(lo, hi)] *)
Definition py_range (lo hi : Z) : list Z := arange lo hi 1.

(** [fill * n] *)
Definition py_repeat (fill : N) (n : Z) : pystr := replicate (Z.to_nat n) fill.

(** [s.center(width, fill)]: when the padding is odd and the width is odd,
    the extra character goes to the left. *)
Definition center (width : nat) (fill : N) (s : pystr) : pystr :=
  if decide (width ≤ length s) then s
  else
    let marg := width - length s in
    let left := marg / 2 + (if Nat.odd marg && Nat.odd width then 1 else 0) in
    replicate left fill ++ s ++ replicate (marg - left) fill.

(** [s.ljust(width)] *)
Definition ljust (width : nat) (s : pystr) : pystr :=
  s ++ replicate (width - length s) space.

(** [str(l)] for a list of integers and [None]s, and [s.replace(' ', '')]. *)
Definition py_repr (x : option Z) : pystr :=
  match x with
  | None => lit "None"
  | Some z => lit (pretty z)
  end.

Fixpoint join (sep : pystr) (l : list pystr) : pystr :=
  match l with
  | [] => []
  | [s] => s
  | s :: l' => s ++ sep ++ join sep l'
  end.

Definition py_str_list (l : list (option Z)) : pystr :=
  lit "[" ++ join (lit ", ") (py_repr <$> l) ++ lit "]".

Definition remove_spaces (s : pystr) : pystr := filter (λ c, c ≠ space) s.

(** [check_circuit].  The [isinstance] tests hold by typing.  [G] and [P]
    are the types of the gates and of the entries of [param_inds_seq]. *)
Definition check_circuit {G P} (gate_seq : list G) (qubit_inds_seq : list (list Z))
    (param_inds_seq : list P) (n_qubits : option Z) : result unit :=
  if decide (length gate_seq ≠ length qubit_inds_seq
             ∨ length param_inds_seq ≠ length param_inds_seq)
  then Raise TypeError
  else
    match n_qubits with
    | None => Ok ()
    | Some n =>
        maxes ← comprehension py_max qubit_inds_seq;
        largest ← py_max maxes;
        if decide (n < largest + 1)%Z then Raise TypeError else Ok ()
    end.

(** What [_get_gate_str] looks at in a gate: a string; otherwise its
    [__name__]; otherwise the [__name__] of its class; otherwise nothing.
    [param_inds] is a python list of integers and [None]s. *)
Inductive gate_obj :=
  | GateStr (s : pystr)
  | GateNamed (name : pystr)
  | GateOfClass (class_name : pystr)
  | GateOther.

Definition _get_gate_str (gate : gate_obj) (param_inds : list (option Z)) : pystr :=
  let gate_str :=
    match gate with
    | GateStr s => s
    | GateNamed name => name
    | GateOfClass class_name => class_name
    | GateOther => lit "Other"
    end in
  let gate_str :=
    if decide (param_inds = [] ∨ param_inds = [None]) then
      if decide (7 < length gate_str) then take 6 gate_str ++ lit "." else gate_str
    else
      let param_str := remove_spaces (py_str_list param_inds) in
      let param_str := if decide (5 < length param_str) then lit "[.]" else param_str in
      let gate_str :=
        if decide (7 < length gate_str + length param_str)
        then take 1 gate_str ++ lit "." else gate_str in
      gate_str ++ param_str in
  center 7 dash gate_str.

(** [_pad_rows]: rows at even positions are qubit rows. *)
Definition extend_row (max_len : nat) (row : pystr) (qubit_row : bool) : pystr :=
  let lr := length row in
  if decide (lr < max_len) then
    if qubit_row then row ++ replicate (max_len - lr) dash
    else row ++ replicate (max_len - lr) space
  else row.

Definition _pad_rows (rows : list pystr) : result (list pystr * list bool) :=
  max_len ← py_max ((λ r, Z.of_nat (length r)) <$> rows);
  Ok (imap (λ i r, extend_row (Z.to_nat max_len) r (bool_decide (i mod 2 = 0))) rows,
      replicate (length rows) true).

(** The label of a qubit row: [f'q{i}: '.ljust(3) + '-' * sep_length]. *)
Definition qubit_label (i sep_length : Z) : pystr :=
  ljust 3 (lit "q" ++ lit (pretty i) ++ lit ": ") ++ py_repeat dash sep_length.

(** One pass of the inner loop of [print_circuit] over a row. *)
Definition draw_row (g : pystr) (qi : list Z) (sep_length : Z)
    (st : list pystr * list bool) (row_ind : Z) : result (list pystr * list bool) :=
  let '(rows, qubits_free) := st in
  target ← py_getitem qi (-1);
  if decide (row_ind = 2 * target)%Z then
    r ← py_getitem rows row_ind;
    rows ← py_setitem rows row_ind (r ++ py_repeat dash sep_length ++ g);
    qubits_free ← py_setitem qubits_free (row_ind / 2) false;
    Ok (rows, qubits_free)
  else if decide (row_ind mod 2 = 1)%Z then
    r ← py_getitem rows row_ind;
    rows ← py_setitem rows row_ind
             (r ++ py_repeat space sep_length ++ lit "   " ++ lit "|" ++ lit "   ");
    Ok (rows, qubits_free)
  else if decide ((row_ind / 2)%Z ∈ qi) then
    r ← py_getitem rows row_ind;
    rows ← py_setitem rows row_ind
             (r ++ py_repeat dash sep_length ++ lit "---" ++ [circle] ++ lit "---");
    qubits_free ← py_setitem qubits_free (row_ind / 2) false;
    Ok (rows, qubits_free)
  else
    r ← py_getitem rows row_ind;
    rows ← py_setitem rows row_ind
             (r ++ py_repeat dash sep_length ++ lit "---" ++ lit "|" ++ lit "---");
    qubits_free ← py_setitem qubits_free (row_ind / 2) false;
    Ok (rows, qubits_free).

(** One pass of the outer loop: gate number [gate_ind]. *)
Definition draw_gate (gate_str_seq : list pystr) (qubit_inds_seq : list (list Z))
    (sep_length : Z) (st : list pystr * list bool) (gate_ind : Z)
  : result (list pystr * list bool) :=
  let '(rows, qubits_free) := st in
  g ← py_getitem gate_str_seq gate_ind;
  qi ← py_getitem qubit_inds_seq gate_ind;
  qi_min ← py_min qi;
  qi_max ← py_max qi;
  free ← comprehension (py_getitem qubits_free) (py_range qi_min qi_max);
  st ← (if forallb id free then Ok (rows, qubits_free) else _pad_rows rows);
  for_each (py_range (2 * qi_min) (2 * qi_max + 1)) (draw_row g qi sep_length) st.

(** [print_circuit]; [qubit_max] and [gate_ind_max] are [None] for the
    default [jnp.inf].  The lines printed are the rows returned. *)
Definition print_circuit (gate_seq : list gate_obj) (qubit_inds_seq : list (list Z))
    (param_inds_seq : list (list (option Z))) (n_qubits : option Z)
    (qubit_min : Z) (qubit_max : option Z) (gate_ind_min : Z) (gate_ind_max : option Z)
    (sep_length : Z) : result (list pystr) :=
  _ ← check_circuit gate_seq qubit_inds_seq param_inds_seq n_qubits;
  let gate_ind_max :=
    match gate_ind_max with
    | None => (Z.of_nat (length gate_seq) - 1)%Z
    | Some m => Z.min (Z.of_nat (length gate_seq) - 1) m
    end in
  if decide (gate_ind_max < gate_ind_min)%Z then Raise TypeError
  else
    n_qubits ← match n_qubits with
               | Some n => Ok n
               | None => maxes ← comprehension py_max qubit_inds_seq;
                         largest ← py_max maxes;
                         Ok (largest + 1)%Z
               end;
    let qubit_max :=
      match qubit_max with
      | None => (n_qubits - 1)%Z
      | Some m => Z.min (n_qubits - 1) m
      end in
    if decide (qubit_min > qubit_max)%Z then Raise TypeError
    else
      let gate_str_seq := zip_with _get_gate_str gate_seq param_inds_seq in
      let n_qubits_disp := (qubit_max - qubit_min + 1)%Z in
      let rows :=
        [qubit_label qubit_min sep_length]
        ++ (if decide (n_qubits_disp > 1)%Z then
              i ← py_range (qubit_min + 1) (qubit_max + 1);
              [lit "   "; qubit_label i sep_length]
            else []) in
      let qubits_free := replicate (Z.to_nat n_qubits_disp) true in
      st ← for_each (py_range gate_ind_min (gate_ind_max + 1))
             (draw_gate gate_str_seq qubit_inds_seq sep_length) (rows, qubits_free);
      padded ← _pad_rows st.1;
      Ok padded.1.

(** Example circuit: H on qubit 0, CX on qubits 0 and 1, Rz on qubit 1. *)
Definition circuit_gates : list gate_obj :=
  [GateStr (lit "H"); GateStr (lit "CX"); GateStr (lit "Rz")].
Definition circuit_qubits : list (list Z) := [[0]; [0; 1]; [1]]%Z.
Definition circuit_params : list (list (option Z)) := [[]; []; [Some 0%Z]].

(** Every row of [rows'] continues the row of [rows] at the same position. *)
Definition rows_extend (rows rows' : list pystr) : Prop :=
  length rows' = length rows
  ∧ ∀ i r, rows !! i = Some r → ∃ r', rows' !! i = Some r' ∧ r `prefix_of` r'.

(** * Properties *)

(** ** Multi-indices and offsets *)

Lemma length_indices (s : list nat) : length (indices s) = size_of s.
Proof.
  induction s as [|d s IH]; [done|]. simpl.
  generalize 0. induction d as [|d IHd]; intros j; simpl; [done|].
  rewrite length_app, length_fmap, IH, IHd. done.
Qed.

Lemma lookup_bind_blocks {A B} (g : A → list B) (l : list A) (m i j : nat) :
  (∀ x, length (g x) = m) → j < m →
  (l ≫= g) !! (i * m + j) = l !! i ≫= λ x, g x !! j.
Proof.
  intros Hg Hj. revert i. induction l as [|x l IH]; intros i; [done|].
  rewrite bind_cons. destruct i as [|i]; simpl.
  - rewrite lookup_app_l by (rewrite Hg; lia). done.
  - rewrite lookup_app_r by (rewrite Hg; lia). rewrite Hg, <- IH. f_equal. lia.
Qed.

Lemma ravel_lt (s idx : list nat) : in_bounds idx s → ravel s idx < size_of s.
Proof.
  induction 1 as [|i d idx s Hi _ IH]; simpl; [lia|]. nia.
Qed.

Lemma indices_lookup_ravel (s idx : list nat) :
  in_bounds idx s → indices s !! ravel s idx = Some idx.
Proof.
  induction 1 as [|i d idx s Hi Hb IH]; [done|]. simpl.
  rewrite lookup_bind_blocks.
  - rewrite lookup_seq_lt by done. simpl. by rewrite list_lookup_fmap, IH.
  - intros x. by rewrite length_fmap, length_indices.
  - by apply ravel_lt.
Qed.

Lemma elem_of_indices (s idx : list nat) : idx ∈ indices s → in_bounds idx s.
Proof.
  revert idx. induction s as [|d s IH]; intros idx; simpl.
  - intros ->%list_elem_of_singleton. constructor.
  - intros (i & (idx' & -> & Hidx)%list_elem_of_fmap & Hi%elem_of_seq)%list_elem_of_bind.
    constructor; [lia|]. by apply IH.
Qed.

(** Reading a built array inside its shape. *)
Lemma at_build {A} (d : A) (s : list nat) (f : list nat → A) (idx : list nat) :
  in_bounds idx s → at_index d (build s f) idx = f idx.
Proof.
  intros Hb. unfold at_index, build. simpl.
  rewrite nth_lookup, list_lookup_fmap, indices_lookup_ravel by done. done.
Qed.

Lemma in_bounds_length (idx s : list nat) : in_bounds idx s → length idx = length s.
Proof. apply Forall2_length. Qed.

(** ** The codec *)

Lemma arange_down (n : nat) :
  arange (Z.of_nat n - 1) (-1) (-1) = (λ i : nat, Z.of_nat (n - 1 - i)) <$> seq 0 n.
Proof.
  unfold arange. cbn [Z.ltb Z.compare].
  replace (Z.to_nat ((Z.of_nat n - 1 - -1 - -1 - 1) / - -1)) with n
    by (change (- -1)%Z with 1%Z; rewrite Z.div_1_r; lia).
  apply list_fmap_ext. intros i x Hx.
  apply lookup_seq in Hx as [-> Hi]. lia.
Qed.

Lemma foldl_max_spec (l : list Z) (x : Z) :
  (foldl Z.max x l = x ∨ foldl Z.max x l ∈ l)
  ∧ (x ≤ foldl Z.max x l)%Z ∧ Forall (λ y, y ≤ foldl Z.max x l)%Z l.
Proof.
  revert x. induction l as [|y l IH]; intros x; simpl.
  - split; [by left|]. split; [lia|constructor].
  - destruct (IH (Z.max x y)) as (Hin & Hle & Hall). split; [|split].
    + destruct Hin as [Heq|Hin]; [|right; by right].
      rewrite Heq. destruct (Z.max_spec x y) as [[_ ->]|[_ ->]]; [right; by left|by left].
    + lia.
    + constructor; [lia|done].
Qed.

Lemma array_max_spec (l : list Z) (m : Z) :
  array_max l = Some m → m ∈ l ∧ Forall (λ y, y ≤ m)%Z l.
Proof.
  destruct l as [|x l]; [done|]. intros [= <-].
  destruct (foldl_max_spec l x) as (Hin & Hle & Hall). split.
  - destruct Hin as [->|Hin]; [by left|by right].
  - by constructor.
Qed.

(** *** Arithmetic in the integer type *)

Lemma wrap32_int32 (z : Z) : int32 (wrap32 z).
Proof.
  unfold int32, wrap32. pose proof (Z.mod_pos_bound (z + 2 ^ 31) (2 ^ 32)). lia.
Qed.

Lemma wrap32_id (z : Z) : int32 z → wrap32 z = z.
Proof. unfold int32, wrap32. intros Hz. rewrite Z.mod_small; lia. Qed.

Lemma wrap32_eqm (a b : Z) :
  (a mod 2 ^ 32 = b mod 2 ^ 32)%Z → wrap32 a = wrap32 b.
Proof.
  intros Hab. unfold wrap32. f_equal.
  rewrite <- (Zplus_mod_idemp_l a), <- (Zplus_mod_idemp_l b). by rewrite Hab.
Qed.

Lemma wrap32_mod (z : Z) : (wrap32 z mod 2 ^ 32 = z mod 2 ^ 32)%Z.
Proof.
  unfold wrap32. rewrite <- Zminus_mod_idemp_l, Z.mod_mod by lia.
  rewrite Zminus_mod_idemp_l. f_equal. lia.
Qed.

Lemma wrap32_add (a b : Z) : wrap32 (wrap32 a + wrap32 b) = wrap32 (a + b).
Proof. apply wrap32_eqm. by rewrite Z.add_mod, !wrap32_mod, <- Z.add_mod by lia. Qed.

(** The wrapped dot product is the exact one, wrapped once. *)
Lemma dot_acc (row ws : list Z) (acc : Z) :
  foldl (λ acc xy, wrap32 (acc + wrap32 (xy.1 * xy.2)))%Z (wrap32 acc) (zip row ws)
  = wrap32 (acc + Zsum (zip_with Z.mul row ws)).
Proof.
  revert ws acc. induction row as [|x row IH]; intros [|w ws] acc; simpl;
    rewrite ?Z.add_0_r; try done.
  rewrite wrap32_add, IH. f_equal. lia.
Qed.

Lemma dot_exact (row ws : list Z) :
  dot row ws = wrap32 (Zsum (zip_with Z.mul row ws)).
Proof. apply (dot_acc row ws 0). Qed.

(** The weights: exact powers of two at the 31 value positions. *)
Lemma pow32_two (e : Z) : (0 ≤ e < 31)%Z → pow32 2 e = (2 ^ e)%Z.
Proof.
  intros He. unfold pow32. rewrite decide_False by (intros [? _]; done).
  rewrite Z.mod_small by lia. apply wrap32_id. unfold int32.
  assert (0 < 2 ^ e)%Z by (apply Z.pow_pos_nonneg; lia).
  assert (2 ^ e < 2 ^ 31)%Z by (apply Z.pow_lt_mono_r; lia). lia.
Qed.

(** *** Encoding *)

Lemma land_mask (v p : Z) :
  (0 ≤ p)%Z → Z.land v (2 ^ p) = if Z.testbit v p then (2 ^ p)%Z else 0%Z.
Proof.
  intros Hp. apply Z.bits_inj'. intros i Hi.
  rewrite Z.land_spec, Z.pow2_bits_eqb by done.
  destruct (Z.eqb_spec p i) as [->|Hne].
  - destruct (Z.testbit v i) eqn:E; simpl.
    + by rewrite Z.pow2_bits_true.
    + by rewrite Z.bits_0.
  - rewrite andb_false_r. destruct (Z.testbit v p).
    + by rewrite Z.pow2_bits_false.
    + by rewrite Z.bits_0.
Qed.

(** The masks [1 << p]: a power of two below position 31, the least value
    of the type at position 31, and zero above. *)
Lemma shl32_one (p : Z) :
  (0 ≤ p)%Z →
  shl32 1 p = if decide (p < 31)%Z then (2 ^ p)%Z
              else if decide (p = 31)%Z then (- 2 ^ 31)%Z else 0%Z.
Proof.
  intros Hp. unfold shl32. rewrite Z.shiftl_1_l.
  destruct (decide (p < 31)%Z) as [Hlt|Hge].
  - rewrite decide_True by lia. apply wrap32_id. unfold int32.
    assert (0 < 2 ^ p)%Z by (apply Z.pow_pos_nonneg; lia).
    assert (2 ^ p < 2 ^ 31)%Z by (apply Z.pow_lt_mono_r; lia). lia.
  - destruct (decide (p = 31)%Z) as [->|Hne]; [done|].
    by rewrite decide_False by lia.
Qed.

(** Bit 31 is the sign: masking it never gives a positive value. *)
Lemma land_sign_bit (v : Z) : int32 v → (Z.land v (- 2 ^ 31) ≤ 0)%Z.
Proof.
  unfold int32. intros Hv.
  change (- 2 ^ 31)%Z with (Z.lnot (Z.ones 31)).
  rewrite <- Z.ldiff_land, Z.ldiff_ones_r by lia.
  rewrite Z.shiftl_mul_pow2, Z.shiftr_div_pow2 by lia.
  assert (v / 2 ^ 31 ≤ 0)%Z; [|lia].
  apply Z.lt_succ_r. apply Z.div_lt_upper_bound; lia.
Qed.

(** One entry of the table: the digit of [v] at position [p], with 0 at the
    positions that the integer type does not have as value bits. *)
Lemma mask_digit (v : Z) (p : nat) :
  int32 v →
  bool_to_int (0 <? Z.land v (shl32 1 (Z.of_nat p)))%Z
  = ((v mod 2 ^ 31 / 2 ^ Z.of_nat p) mod 2)%Z.
Proof.
  intros Hv. rewrite shl32_one by lia.
  pose proof (Z.mod_pos_bound v (2 ^ 31) ltac:(lia)) as Hm.
  destruct (decide (Z.of_nat p < 31)%Z) as [Hlt|Hge].
  - rewrite land_mask by lia. rewrite <- Z.testbit_spec' by lia.
    rewrite Z.mod_pow2_bits_low by lia.
    destruct (Z.testbit v (Z.of_nat p)); simpl; [|done].
    assert (0 < 2 ^ Z.of_nat p)%Z by (apply Z.pow_pos_nonneg; lia).
    by destruct (Z.ltb_spec 0 (2 ^ Z.of_nat p)); [|lia].
  - assert (2 ^ 31 ≤ 2 ^ Z.of_nat p)%Z by (apply Z.pow_le_mono_r; lia).
    rewrite (Z.div_small (v mod 2 ^ 31)) by lia.
    destruct (decide (Z.of_nat p = 31)%Z) as [_|_].
    + pose proof (land_sign_bit v Hv).
      by destruct (Z.ltb_spec 0 (Z.land v (- 2 ^ 31))); [lia|].
    + by rewrite Z.land_0_r.
Qed.

(** One row of the table built by [integers_to_bitstrings]. *)
Lemma masked_row (v : Z) (n : nat) :
  int32 v →
  (λ mk, bool_to_int (0 <? Z.land v mk)%Z) <$>
    (shl32 1 <$> arange (Z.of_nat n - 1) (-1) (-1)) = be_digits n (v mod 2 ^ 31).
Proof.
  intros Hv. rewrite arange_down. unfold be_digits. rewrite <- !list_fmap_compose.
  apply list_fmap_ext. intros i x _. simpl. by apply mask_digit.
Qed.

Lemma length_be_digits (n : nat) (v : Z) : length (be_digits n v) = n.
Proof. unfold be_digits. by rewrite length_fmap, length_seq. Qed.

Lemma be_digits_binary (n : nat) (v : Z) :
  Forall (λ b, b = 0%Z ∨ b = 1%Z) (be_digits n v).
Proof.
  unfold be_digits. apply Forall_fmap, Forall_forall. intros i _. simpl.
  pose proof (Z.mod_pos_bound (v / 2 ^ Z.of_nat (n - 1 - i)) 2). lia.
Qed.

Lemma be_digits_mod (n : nat) (v : Z) :
  be_digits n (v mod 2 ^ Z.of_nat n) = be_digits n v.
Proof.
  unfold be_digits. apply list_fmap_ext. intros i x Hx.
  apply lookup_seq in Hx as [-> Hi]. simpl.
  rewrite <- !Z.testbit_spec' by lia.
  by rewrite Z.mod_pow2_bits_low by lia.
Qed.

Lemma be_digits_S (n : nat) (v : Z) :
  be_digits (S n) v = ((v / 2 ^ Z.of_nat n) mod 2)%Z :: be_digits n v.
Proof.
  unfold be_digits. change (seq 0 (S n)) with (0 :: seq 1 n).
  rewrite fmap_cons, <- fmap_S_seq, <- list_fmap_compose.
  f_equal.
  - do 4 f_equal. lia.
  - apply list_fmap_ext. intros i x _. simpl. do 4 f_equal. lia.
Qed.

Lemma foldl_be_value (row : list Z) (acc : Z) :
  foldl (λ a b, 2 * a + b)%Z acc row
  = (acc * 2 ^ Z.of_nat (length row) + be_value row)%Z.
Proof.
  unfold be_value. revert acc. induction row as [|b row IH] using rev_ind; intros acc.
  - simpl. lia.
  - rewrite !foldl_snoc, length_app, IH. simpl length.
    rewrite Nat2Z.inj_add, Z.pow_add_r by lia. change (2 ^ Z.of_nat 1)%Z with 2%Z.
    lia.
Qed.

Lemma be_value_cons (b : Z) (row : list Z) :
  be_value (b :: row) = (b * 2 ^ Z.of_nat (length row) + be_value row)%Z.
Proof. unfold be_value at 1. simpl. rewrite foldl_be_value. lia. Qed.

(** The digits of [v] read back give [v] modulo [2^n]. *)
Lemma be_value_digits (n : nat) (v : Z) :
  be_value (be_digits n v) = (v mod 2 ^ Z.of_nat n)%Z.
Proof.
  induction n as [|n IH].
  - simpl. by rewrite Z.mod_1_r.
  - rewrite be_digits_S, be_value_cons, length_be_digits, IH.
    rewrite Nat2Z.inj_succ, Z.pow_succ_r by lia.
    assert (0 < 2 ^ Z.of_nat n)%Z by (apply Z.pow_pos_nonneg; lia).
    rewrite (Z.mul_comm 2), Z.rem_mul_r by lia. lia.
Qed.

Lemma be_value_range (row : list Z) :
  Forall binary row → (0 ≤ be_value row < 2 ^ Z.of_nat (length row))%Z.
Proof.
  induction 1 as [|b row Hb _ IH]; [done|].
  rewrite be_value_cons. simpl length. rewrite Nat2Z.inj_succ, Z.pow_succ_r by lia.
  destruct Hb as [-> | ->]; lia.
Qed.

(** A row of at most 31 binary digits has a value of the integer type. *)
Lemma be_value_int32 (row : list Z) :
  Forall binary row → length row ≤ 31 →
  (0 ≤ be_value row < 2 ^ 31)%Z ∧ wrap32 (be_value row) = be_value row.
Proof.
  intros Hrow Hlen. pose proof (be_value_range row Hrow) as Hr.
  assert (2 ^ Z.of_nat (length row) ≤ 2 ^ 31)%Z by (apply Z.pow_le_mono_r; lia).
  split; [lia|]. apply wrap32_id. unfold int32. lia.
Qed.

(** *** Decoding *)

(** The exact sum [row . (2 ** arange(n-1, -1, -1))] is the big-endian value
    of the row. *)
Lemma dot_be_value (row : list Z) :
  Zsum (zip_with Z.mul row
          (Z.pow 2 <$> arange (Z.of_nat (length row) - 1) (-1) (-1)))
  = be_value row.
Proof.
  rewrite arange_down, <- list_fmap_compose.
  induction row as [|b row IH].
  - done.
  - rewrite be_value_cons, <- IH. simpl length.
    change (seq 0 (S (length row))) with (0 :: seq 1 (length row)).
    rewrite fmap_cons, <- fmap_S_seq, <- list_fmap_compose. simpl.
    rewrite !Nat.sub_0_r. f_equal. f_equal. f_equal.
    apply list_fmap_ext. intros i x _. simpl. do 2 f_equal. lia.
Qed.

(** A row of at most 31 digits is read with exact weights, so a binary one
    is read as its big-endian value. *)
Lemma dot_row (row : list Z) :
  Forall binary row → length row ≤ 31 → dot row (convarr (length row)) = be_value row.
Proof.
  intros Hrow Hlen. rewrite dot_exact. unfold convarr.
  assert (pow32 2 <$> arange (Z.of_nat (length row) - 1) (-1) (-1)
          = Z.pow 2 <$> arange (Z.of_nat (length row) - 1) (-1) (-1)) as ->.
  { rewrite arange_down, <- !list_fmap_compose. apply list_fmap_ext.
    intros i x Hx. apply lookup_seq in Hx as [-> Hi]. simpl. apply pow32_two. lia. }
  rewrite dot_be_value. by apply be_value_int32.
Qed.

(** The digits that [integers_to_bitstrings] gives for a non-negative value
    of the integer type are read back as the value (modulo [2^n]) whatever
    the width: the digits at the positions from 31 on are 0. *)
Lemma dot_digits (n : nat) (v : Z) :
  (0 ≤ v < 2 ^ 31)%Z → dot (be_digits n v) (convarr n) = (v mod 2 ^ Z.of_nat n)%Z.
Proof.
  intros Hv. rewrite dot_exact. unfold convarr.
  assert (zip_with Z.mul (be_digits n v)
            (pow32 2 <$> arange (Z.of_nat n - 1) (-1) (-1))
          = zip_with Z.mul (be_digits n v)
              (Z.pow 2 <$> arange (Z.of_nat n - 1) (-1) (-1))) as ->.
  { rewrite arange_down. unfold be_digits.
    rewrite !zip_with_fmap_l, !zip_with_fmap_r, !zip_with_diag.
    apply list_fmap_ext. intros i x Hx. apply lookup_seq in Hx as [-> Hi]. simpl.
    destruct (decide (n - 1 - i < 31)) as [Hlt|Hge].
    - by rewrite pow32_two by lia.
    - assert (2 ^ 31 ≤ 2 ^ Z.of_nat (n - 1 - i))%Z by (apply Z.pow_le_mono_r; lia).
      by rewrite Z.div_small by lia. }
  rewrite <- (length_be_digits n v) at 2. rewrite dot_be_value, be_value_digits.
  pose proof (Z.mod_pos_bound v (2 ^ Z.of_nat n) ltac:(lia)) as Hm.
  assert (v mod 2 ^ Z.of_nat n ≤ v)%Z by (apply Z.mod_le; lia).
  apply wrap32_id. unfold int32. lia.
Qed.

Lemma data_atleast_1d {A} (a : ndarray A) : data (atleast_1d a) = data a.
Proof. unfold atleast_1d. by destruct (shape a). Qed.

Lemma squeeze_row {A} (n : nat) (l : list A) :
  squeeze (NDArray [1; n] l) = NDArray (if decide (n = 1) then [] else [n]) l.
Proof.
  unfold squeeze. simpl. f_equal.
  rewrite filter_cons_False by (intros ?; done).
  destruct (decide (n = 1)) as [->|Hn].
  - by rewrite filter_cons_False by (intros ?; done).
  - by rewrite filter_cons_True by done.
Qed.

(** An entry outside the integer type makes the call raise. *)
Lemma integers_to_bitstrings_overflow (a : ndarray Z) (nbits : option Z) :
  ¬ Forall int32 (data a) → integers_to_bitstrings a nbits = None.
Proof.
  intros Hbad. unfold integers_to_bitstrings, as_int32.
  rewrite data_atleast_1d. by rewrite decide_False by done.
Qed.

(** With an explicit width [n] the result is the table of the [n] digits of
    each entry, squeezed; a negative entry gives the digits of its 31 value
    bits. *)
Lemma integers_to_bitstrings_width (a : ndarray Z) (n : nat) :
  Forall int32 (data a) →
  integers_to_bitstrings a (Some (Z.of_nat n))
  = Some (squeeze (NDArray [size (atleast_1d a); n]
                     (v ← data a; be_digits n (v mod 2 ^ 31)))).
Proof.
  intros Ha. unfold integers_to_bitstrings, shift_amounts, as_int32.
  rewrite data_atleast_1d, decide_True by done. cbn [mbind option_bind].
  rewrite length_fmap, arange_down, length_fmap, length_seq, data_atleast_1d.
  do 3 f_equal. apply Forall_bind_ext. eapply Forall_impl; [exact Ha|].
  intros v Hv. simpl. rewrite <- (masked_row v n Hv). by rewrite arange_down.
Qed.

Lemma integers_to_bitstrings_nonneg (a : ndarray Z) (n : nat) :
  Forall (λ v, 0 ≤ v < 2 ^ 31)%Z (data a) →
  integers_to_bitstrings a (Some (Z.of_nat n))
  = Some (squeeze (NDArray [size (atleast_1d a); n] (v ← data a; be_digits n v))).
Proof.
  intros Ha. rewrite integers_to_bitstrings_width.
  - do 3 f_equal. apply Forall_bind_ext. eapply Forall_impl; [exact Ha|].
    intros v Hv. simpl. by rewrite Z.mod_small.
  - eapply Forall_impl; [exact Ha|]. unfold int32. intros v Hv. simpl in Hv. lia.
Qed.

Lemma integers_to_bitstrings_scalar (v : Z) (n : nat) :
  (0 ≤ v < 2 ^ 31)%Z →
  integers_to_bitstrings (scalar v) (Some (Z.of_nat n))
  = Some (NDArray (if decide (n = 1) then [] else [n]) (be_digits n v)).
Proof.
  intros Hv. rewrite integers_to_bitstrings_nonneg by (constructor; [done|constructor]).
  simpl. by rewrite app_nil_r, <- squeeze_row.
Qed.

Lemma rows_one {A} (n : nat) (l : list A) : length l = n → rows 1 n l = [l].
Proof. intros <-. unfold rows. simpl. by rewrite drop_0, firstn_all. Qed.

(** A single row, given what the dot product of the row is. *)
Lemma bitstrings_to_integers_row (row : list Z) (s : list nat) (val : Z) :
  s = [] ∧ length row = 1 ∨ s = [length row] →
  dot row (convarr (length row)) = val →
  bitstrings_to_integers (NDArray s row) = scalar val.
Proof.
  intros Hs Hval. unfold bitstrings_to_integers.
  assert (atleast_2d (NDArray s row) = NDArray [1; length row] row) as ->.
  { destruct Hs as [[-> Hl]| ->]; [|done]. unfold atleast_2d. simpl. by rewrite Hl. }
  cbv zeta. cbn [shape data].
  change (List.last [1; length row] 0) with (length row).
  change (removelast [1; length row]) with [1].
  change (size_of [1]) with 1.
  rewrite rows_one by done. cbn [fmap list_fmap]. by rewrite Hval.
Qed.

Lemma length_rows_row {A} (r n i : nat) (l row : list A) :
  length l = r * n → rows r n l !! i = Some row → length row = n.
Proof.
  intros Hl Hrow. unfold rows in Hrow.
  apply list_lookup_fmap_Some in Hrow as (j & -> & Hj).
  apply lookup_seq in Hj as [-> Hi]. simpl.
  rewrite length_take, length_drop. nia.
Qed.

(** A table, given what the dot product of each of its rows is. *)
Lemma bitstrings_to_integers_table (r n : nat) (tbl : list Z) (val : list Z → Z) :
  (∀ row, row ∈ rows r n tbl → dot row (convarr n) = val row) →
  bitstrings_to_integers (NDArray [r; n] tbl)
  = squeeze (NDArray [r] (val <$> rows r n tbl)).
Proof.
  intros Hval. unfold bitstrings_to_integers.
  change (atleast_2d (NDArray [r; n] tbl)) with (NDArray [r; n] tbl).
  cbv zeta. cbn [shape data].
  change (List.last [r; n] 0) with n. change (removelast [r; n]) with [r].
  replace (size_of [r]) with r by (simpl; lia).
  do 2 f_equal. apply list_fmap_ext. intros i row Hrow.
  apply Hval. by eapply list_elem_of_lookup_2.
Qed.

Lemma rows_binary (r n : nat) (tbl row : list Z) :
  Forall binary tbl → row ∈ rows r n tbl → Forall binary row.
Proof.
  intros Htbl (i & -> & _)%list_elem_of_fmap. by apply Forall_take, Forall_drop.
Qed.

(** C3 (amended): for every width [n >= 1] and every [0 <= v < 2^n] that is
    a value of the integer type ([v < 2^31]; the shift amounts [n-1 .. 0]
    are values of the type as well), decoding the bitstring that
    [integers_to_bitstrings(v, n)] returns gives [v] back. *)
Theorem codec_round_trip (n : nat) (v : Z) :
  1 ≤ n → (Z.of_nat n ≤ 2 ^ 31)%Z → (0 ≤ v < 2 ^ Z.of_nat n)%Z → (v < 2 ^ 31)%Z →
  ∃ bits, integers_to_bitstrings (scalar v) (Some (Z.of_nat n)) = Some bits
          ∧ bitstrings_to_integers bits = scalar v.
Proof.
  intros Hn _ Hv Hv32. eexists. split; [apply integers_to_bitstrings_scalar; lia|].
  apply bitstrings_to_integers_row.
  - rewrite length_be_digits. destruct (decide (n = 1)); auto.
  - rewrite length_be_digits, dot_digits by lia. by apply Z.mod_small.
Qed.

(** The claim as stated fails for [n = 32] and [v = 2^31]: the value is not
    of the integer type and [integers_to_bitstrings] raises. *)
Lemma codec_round_trip_overflow :
  1 ≤ 32 ∧ (0 ≤ 2 ^ 31 < 2 ^ Z.of_nat 32)%Z
  ∧ integers_to_bitstrings (scalar (2 ^ 31)%Z) (Some (Z.of_nat 32)) = None
  ∧ ¬ ∃ bits, integers_to_bitstrings (scalar (2 ^ 31)%Z) (Some (Z.of_nat 32)) = Some bits
              ∧ bitstrings_to_integers bits = scalar (2 ^ 31)%Z.
Proof.
  split; [lia|]. split; [done|]. split; [reflexivity|].
  intros (bits & Hbits & _). discriminate Hbits.
Qed.

Lemma codec_round_trip_witness :
  1 ≤ 4 ∧ (0 ≤ 5 < 2 ^ Z.of_nat 4)%Z
  ∧ ∃ bits, integers_to_bitstrings (scalar 5%Z) (Some (Z.of_nat 4)) = Some bits
            ∧ bitstrings_to_integers bits = scalar 5%Z.
Proof.
  split; [lia|]. split; [simpl; lia|].
  apply (codec_round_trip 4 5); [lia | simpl; lia | simpl; lia | lia].
Defined.

(** C4 (amended): for [0 <= v < 2^nbits] of the integer type ([v < 2^31]),
    [integers_to_bitstrings(v, nbits)] holds the [nbits] binary digits of
    [v], most significant first; and [bitstrings_to_integers] reads every
    row of at most 31 binary digits, in a table or alone, as a big-endian
    binary number.  In particular 5 on 4 bits is [0,1,0,1], and [0,1,0,1]
    is read as 5. *)
Theorem codec_big_endian (nbits : nat) (v : Z) (r n : nat) (tbl row : list Z) :
  (Z.of_nat nbits ≤ 2 ^ 31)%Z → (0 ≤ v < 2 ^ Z.of_nat nbits)%Z → (v < 2 ^ 31)%Z →
  length tbl = r * n → n ≤ 31 → Forall binary tbl →
  length row ≤ 31 → Forall binary row →
  (integers_to_bitstrings (scalar v) (Some (Z.of_nat nbits))
   = Some (NDArray (if decide (nbits = 1) then [] else [nbits]) (be_digits nbits v))
   ∧ length (be_digits nbits v) = nbits
   ∧ Forall (λ b, b = 0%Z ∨ b = 1%Z) (be_digits nbits v)
   ∧ be_value (be_digits nbits v) = v)
  ∧ bitstrings_to_integers (NDArray [r; n] tbl)
    = squeeze (NDArray [r] (be_value <$> rows r n tbl))
  ∧ bitstrings_to_integers (NDArray [length row] row) = scalar (be_value row)
  ∧ integers_to_bitstrings (scalar 5%Z) (Some 4%Z) = Some (NDArray [4] [0; 1; 0; 1]%Z)
  ∧ bitstrings_to_integers (NDArray [4] [0; 1; 0; 1]%Z) = scalar 5%Z.
Proof.
  intros _ Hv Hv32 Htbl Hn Hbin Hlen Hrow. repeat split.
  - apply integers_to_bitstrings_scalar. lia.
  - apply length_be_digits.
  - apply be_digits_binary.
  - by rewrite be_value_digits, Z.mod_small.
  - apply bitstrings_to_integers_table. intros row' Hin.
    pose proof (rows_binary _ _ _ _ Hbin Hin) as Hbin'.
    apply list_elem_of_lookup in Hin as [i Hi].
    rewrite <- (length_rows_row r n i tbl row') by done.
    apply dot_row; [done|]. by rewrite (length_rows_row r n i tbl row').
  - apply bitstrings_to_integers_row; [auto|]. by apply dot_row.
Qed.

(** The claim as stated fails at both ends: [2^31 < 2^32] is refused on 32
    bits, and the 32-digit row [1,0,...,0] is read as [-2^31], not as its
    big-endian value [2^31]. *)
Lemma codec_big_endian_overflow :
  (0 ≤ 2 ^ 31 < 2 ^ Z.of_nat 32)%Z
  ∧ integers_to_bitstrings (scalar (2 ^ 31)%Z) (Some (Z.of_nat 32)) = None
  ∧ bitstrings_to_integers (NDArray [32] (1 :: replicate 31 0)%Z)
    = scalar (- 2 ^ 31)%Z
  ∧ be_value (1 :: replicate 31 0)%Z = (2 ^ 31)%Z.
Proof. split; [done|]. split; [reflexivity|]. split; reflexivity. Qed.

Lemma codec_big_endian_witness :
  integers_to_bitstrings (scalar 6%Z) (Some (Z.of_nat 3)) = Some (NDArray [3] (be_digits 3 6))
  ∧ be_value (be_digits 3 6) = 6%Z
  ∧ bitstrings_to_integers (NDArray [2; 3] [1; 1; 0; 0; 1; 1]%Z)
    = squeeze (NDArray [2] (be_value <$> rows 2 3 [1; 1; 0; 0; 1; 1]%Z))
  ∧ bitstrings_to_integers (NDArray [length [1; 0; 1]%Z] [1; 0; 1]%Z)
    = scalar (be_value [1; 0; 1]%Z).
Proof.
  assert (H0 : (Z.of_nat 3 ≤ 2 ^ 31)%Z) by (simpl; lia).
  assert (H1 : (0 ≤ 6 < 2 ^ Z.of_nat 3)%Z) by (simpl; lia).
  assert (H1' : (6 < 2 ^ 31)%Z) by lia.
  assert (H2 : length [1; 1; 0; 0; 1; 1]%Z = 2 * 3) by reflexivity.
  assert (H3 : 3 ≤ 31) by lia.
  assert (H4 : Forall binary [1; 1; 0; 0; 1; 1]%Z).
  { repeat (constructor; [unfold binary; lia|]). constructor. }
  assert (H5 : length [1; 0; 1]%Z ≤ 31) by (simpl; lia).
  assert (H6 : Forall binary [1; 0; 1]%Z).
  { repeat (constructor; [unfold binary; lia|]). constructor. }
  destruct (codec_big_endian 3 6 2 3 _ _ H0 H1 H1' H2 H3 H4 H5 H6)
    as ((Ha & _ & _ & Hb) & Hc & Hd & _).
  split; [exact Ha|]. split; [exact Hb|]. split; [exact Hc | exact Hd].
Defined.

(** C10 (amended): for every [0 <= v < 2^31] and [nbits >= 1], also when
    [v >= 2^nbits], [integers_to_bitstrings(v, nbits)] returns (no error)
    the [nbits] big-endian digits of [v mod 2^nbits]. *)
Theorem integers_to_bitstrings_masks_high_bits (v nbits : Z) :
  (0 ≤ v < 2 ^ 31)%Z → (1 ≤ nbits ≤ 2 ^ 31)%Z →
  integers_to_bitstrings (scalar v) (Some nbits)
  = Some (NDArray (if decide (Z.to_nat nbits = 1) then [] else [Z.to_nat nbits])
            (be_digits (Z.to_nat nbits) (v mod 2 ^ nbits))).
Proof.
  intros Hv Hn. remember (Z.to_nat nbits) as n eqn:En.
  replace nbits with (Z.of_nat n) by lia.
  by rewrite integers_to_bitstrings_scalar, be_digits_mod.
Qed.

(** The claim as stated fails for [v = 2^31] on 3 bits: the call raises. *)
Lemma integers_to_bitstrings_masks_overflow :
  (0 ≤ 2 ^ 31)%Z ∧ (1 ≤ 3)%Z
  ∧ integers_to_bitstrings (scalar (2 ^ 31)%Z) (Some 3%Z) = None.
Proof. split; [done|]. split; [done|]. reflexivity. Qed.

Lemma integers_to_bitstrings_masks_high_bits_witness :
  (0 ≤ 13 < 2 ^ 31)%Z ∧ (1 ≤ 3 ≤ 2 ^ 31)%Z
  ∧ integers_to_bitstrings (scalar 13%Z) (Some 3%Z) = Some (NDArray [3] [1; 0; 1]%Z).
Proof.
  split; [lia|]. split; [lia|].
  apply (integers_to_bitstrings_masks_high_bits 13 3); lia.
Defined.

(** ** Axes: gather, scatter, complement *)

Lemma length_gather (l ps : list nat) : length (gather l ps) = length ps.
Proof. apply length_fmap. Qed.

Lemma length_scatter (ps vs base : list nat) :
  length (scatter ps vs base) = length base.
Proof.
  revert vs. induction ps as [|p ps IH]; intros [|v vs]; simpl; try done.
  by rewrite length_insert.
Qed.

Lemma scatter_lookup_notin (ps vs base : list nat) (p : nat) :
  p ∉ ps → scatter ps vs base !! p = base !! p.
Proof.
  revert vs. induction ps as [|p0 ps IH]; intros [|v vs] Hp; simpl; try done.
  apply not_elem_of_cons in Hp as [Hne Hp].
  rewrite list_lookup_insert_ne by done. by apply IH.
Qed.

Lemma scatter_lookup_gather (ps b base : list nat) (p : nat) :
  p ∈ ps → p < length base → scatter ps (gather b ps) base !! p = Some (nth p b 0).
Proof.
  intros Hp Hlt. induction ps as [|p0 ps IH]; [by apply elem_of_nil in Hp|].
  simpl. destruct (decide (p0 = p)) as [->|Hne].
  - by rewrite list_lookup_insert_eq by (by rewrite length_scatter).
  - rewrite list_lookup_insert_ne by done. apply IH.
    apply elem_of_cons in Hp as [->|]; done.
Qed.

Lemma scatter_lookup_base (ps vs base base' : list nat) (p : nat) :
  length vs = length ps → length base = length base' → p ∈ ps →
  scatter ps vs base !! p = scatter ps vs base' !! p.
Proof.
  revert vs. induction ps as [|p0 ps IH]; intros [|v vs] Hl Hb Hp; simpl in *; try done.
  - by apply elem_of_nil in Hp.
  - destruct (decide (p0 = p)) as [->|Hne].
    + destruct (decide (p < length base)).
      * rewrite !list_lookup_insert_eq; rewrite ?length_scatter; [done|lia..].
      * rewrite !lookup_ge_None_2; rewrite ?length_insert, ?length_scatter; [done|lia..].
    + rewrite !list_lookup_insert_ne by done. apply IH; [lia|done|].
      apply elem_of_cons in Hp as [->|]; done.
Qed.

Lemma scatter_lookup_nth (ps vs base : list nat) (i p v : nat) :
  NoDup ps → ps !! i = Some p → vs !! i = Some v → p < length base →
  scatter ps vs base !! p = Some v.
Proof.
  revert vs i. induction ps as [|p0 ps IH]; intros [|v0 vs] i Hnd Hp Hv Hlt;
    try done.
  apply NoDup_cons in Hnd as [Hnotin Hnd]. destruct i as [|i]; simpl in *.
  - simplify_eq.
    by rewrite list_lookup_insert_eq by (by rewrite length_scatter).
  - rewrite list_lookup_insert_ne.
    + by eapply IH.
    + intros ->. apply Hnotin. by eapply list_elem_of_lookup_2.
Qed.

Lemma elem_of_complement (n : nat) (ps : list nat) (p : nat) :
  p ∈ complement n ps ↔ p < n ∧ p ∉ ps.
Proof.
  unfold complement. rewrite list_elem_of_filter, elem_of_seq. intuition lia.
Qed.

Lemma NoDup_complement (n : nat) (ps : list nat) : NoDup (complement n ps).
Proof. apply NoDup_filter, NoDup_seq. Qed.

Lemma filter_all {A} (P : A → Prop) `{!∀ x, Decision (P x)} (l : list A) :
  Forall P l → filter P l = l.
Proof.
  induction 1 as [|x l Hx _ IH]; [done|]. by rewrite filter_cons_True, IH.
Qed.

Lemma filter_none {A} (P : A → Prop) `{!∀ x, Decision (P x)} (l : list A) :
  Forall (λ x, ¬ P x) l → filter P l = [].
Proof.
  induction 1 as [|x l Hx _ IH]; [done|]. by rewrite filter_cons_False.
Qed.

Lemma complement_prefix (k m : nat) : complement (k + m) (seq 0 k) = seq k m.
Proof.
  unfold complement. rewrite seq_app, filter_app, filter_none, filter_all; [done|..].
  - apply Forall_forall. intros p Hp%elem_of_seq Hq%elem_of_seq. lia.
  - apply Forall_forall. intros p Hp%elem_of_seq Hq. apply Hq, elem_of_seq. lia.
Qed.

Lemma complement_suffix (k m : nat) : complement (k + m) (seq k m) = seq 0 k.
Proof.
  unfold complement. rewrite seq_app, filter_app, filter_all, filter_none.
  - apply app_nil_r.
  - apply Forall_forall. intros p Hp%elem_of_seq Hq. apply Hq, elem_of_seq. lia.
  - apply Forall_forall. intros p Hp%elem_of_seq Hq%elem_of_seq. lia.
Qed.

(** A duplicate-free list of [k] axes below [n] leaves [n - k] axes free. *)
Lemma length_complement (n : nat) (ps : list nat) :
  NoDup ps → Forall (λ p, p < n) ps → length (complement n ps) + length ps = n.
Proof.
  intros Hnd Hlt.
  assert (filter (λ p, p ∈ ps) (seq 0 n) ≡ₚ ps) as Hperm.
  { apply NoDup_Permutation; [apply NoDup_filter, NoDup_seq|done|].
    intros p. rewrite list_elem_of_filter, elem_of_seq.
    rewrite Forall_forall in Hlt. split; [by intros [? _]|].
    intros Hp. split; [done|]. specialize (Hlt p Hp). lia. }
  rewrite <- (Permutation_length Hperm). unfold complement.
  transitivity (length (seq 0 n)); [|apply length_seq].
  generalize (seq 0 n). intros l. induction l as [|x l IH]; [done|].
  destruct (decide (x ∈ ps)).
  - rewrite (filter_cons_False (λ p, p ∉ ps)) by (intros ?; done).
    rewrite filter_cons_True by done. simpl. lia.
  - rewrite filter_cons_True by done. rewrite filter_cons_False by done. simpl. lia.
Qed.

Lemma gather_replicate (n d : nat) (ps : list nat) :
  Forall (λ p, p < n) ps → gather (replicate n d) ps = replicate (length ps) d.
Proof.
  induction 1 as [|p ps Hp _ IH]; [done|]. unfold gather in *. simpl. f_equal; [|done].
  by rewrite nth_lookup, lookup_replicate_2.
Qed.

Lemma gather_all (l : list nat) : gather l (seq 0 (length l)) = l.
Proof.
  apply list_eq. intros i. unfold gather. rewrite list_lookup_fmap.
  destruct (decide (i < length l)) as [Hi|Hi].
  - rewrite lookup_seq_lt by done. simpl. rewrite nth_lookup.
    destruct (lookup_lt_is_Some_2 l i Hi) as [x ->]. done.
  - rewrite lookup_seq_ge by lia. by rewrite lookup_ge_None_2 by lia.
Qed.

(** Filling a prefix and the rest gives the concatenation. *)
Lemma scatter_prefix_suffix (k m : nat) (xs ys base : list nat) :
  length xs = k → length ys = m → length base = k + m →
  scatter (seq 0 k) xs (scatter (seq k m) ys base) = xs ++ ys.
Proof.
  intros Hx Hy Hb. apply list_eq. intros p.
  destruct (decide (p < k)) as [Hp|Hp].
  - rewrite lookup_app_l by lia.
    destruct (lookup_lt_is_Some_2 xs p) as [v Hv]; [lia|]. rewrite Hv.
    apply (scatter_lookup_nth _ _ _ p); [apply NoDup_seq| |done|].
    + by rewrite lookup_seq_lt.
    + rewrite length_scatter. lia.
  - rewrite scatter_lookup_notin by (intros ?%elem_of_seq; lia).
    rewrite lookup_app_r by lia. rewrite Hx.
    destruct (decide (p < k + m)) as [Hpm|Hpm].
    + destruct (lookup_lt_is_Some_2 ys (p - k)) as [v Hv]; [lia|]. rewrite Hv.
      apply (scatter_lookup_nth _ _ _ (p - k)); [apply NoDup_seq| |done|lia].
      rewrite lookup_seq_lt by lia. f_equal. lia.
    + rewrite !lookup_ge_None_2; rewrite ?length_scatter; [done|lia..].
Qed.

(** Writing [c] at the axes [q] commutes with restoring every other axis
    from [b]. *)
Lemma scatter_complement (n : nat) (q c b base : list nat) :
  length b = n → length base = n → length c = length q →
  scatter (complement n q) (gather b (complement n q)) (scatter q c base)
  = scatter q c b.
Proof.
  intros Hb Hbase Hc. apply list_eq. intros p.
  destruct (decide (p < n)) as [Hp|Hp].
  - destruct (decide (p ∈ q)) as [Hq|Hq].
    + rewrite scatter_lookup_notin by (rewrite elem_of_complement; intros [_ ?]; done).
      apply scatter_lookup_base; [done|lia|done].
    + rewrite scatter_lookup_gather.
      * rewrite scatter_lookup_notin by done. rewrite nth_lookup.
        destruct (lookup_lt_is_Some_2 b p) as [v ->]; [lia|done].
      * by apply elem_of_complement.
      * rewrite length_scatter. lia.
  - rewrite !lookup_ge_None_2; rewrite ?length_scatter; [done|lia..].
Qed.

(** Restoring the axes [q] and every other axis from [b] rebuilds [b]. *)
Lemma scatter_both (n : nat) (q b base : list nat) :
  length b = n → length base = n →
  scatter q (gather b q) (scatter (complement n q) (gather b (complement n q)) base) = b.
Proof.
  intros Hb Hbase. apply list_eq. intros p.
  destruct (decide (p < n)) as [Hp|Hp].
  - destruct (lookup_lt_is_Some_2 b p) as [v Hv]; [lia|].
    assert (nth p b 0 = v) as Hn by (by rewrite nth_lookup, Hv).
    destruct (decide (p ∈ q)) as [Hq|Hq].
    + rewrite scatter_lookup_gather; [congruence|done|].
      rewrite !length_scatter. lia.
    + rewrite scatter_lookup_notin by done.
      rewrite scatter_lookup_gather; [congruence| |lia].
      by apply elem_of_complement.
  - rewrite !lookup_ge_None_2; rewrite ?length_scatter; [done|lia..].
Qed.

Lemma arange_up (lo : Z) (k : nat) :
  arange lo (lo + Z.of_nat k) 1 = (λ i : nat, (lo + Z.of_nat i)%Z) <$> seq 0 k.
Proof.
  unfold arange. cbn [Z.ltb Z.compare].
  replace (Z.to_nat ((lo + Z.of_nat k - lo + 1 - 1) / 1)) with k
    by (rewrite Z.div_1_r; lia).
  apply list_fmap_ext. intros i x _. simpl. lia.
Qed.

Lemma norm_axes_fmap (nd : nat) (f : nat → Z) (g : nat → nat) (l : list nat) :
  Forall (λ i, norm_axis nd (f i) = Some (g i)) l →
  norm_axes nd (f <$> l) = Some (g <$> l).
Proof.
  unfold norm_axes. induction 1 as [|i l Hi _ IH]; [done|].
  rewrite !fmap_cons. cbn [mapM]. rewrite Hi, IH. done.
Qed.

Lemma norm_axis_nat (nd p : nat) : p < nd → norm_axis nd (Z.of_nat p) = Some p.
Proof.
  intros Hp. unfold norm_axis. rewrite decide_True by lia. f_equal. lia.
Qed.

Lemma norm_axis_neg (nd k i : nat) :
  k ≤ nd → i < k → norm_axis nd (- Z.of_nat k + Z.of_nat i) = Some (nd - k + i).
Proof.
  intros Hk Hi. unfold norm_axis.
  rewrite decide_False by lia. rewrite decide_True by lia. f_equal. lia.
Qed.

(** The three axis lists the evaluator passes: the qubit indices, the
    leading axes [range(k)] and the trailing axes [range(-k, 0)]. *)
Lemma norm_axes_qubits (nd : nat) (q : list nat) :
  Forall (λ p, p < nd) q → norm_axes nd (Z.of_nat <$> q) = Some q.
Proof.
  intros Hq. rewrite <- (list_fmap_id q) at 2. apply norm_axes_fmap.
  eapply Forall_impl; [done|]. intros p Hp. by apply norm_axis_nat.
Qed.

Lemma norm_axes_leading (nd k : nat) :
  k ≤ nd → norm_axes nd (arange 0 (Z.of_nat k) 1) = Some (seq 0 k).
Proof.
  intros Hk. change (Z.of_nat k) with (0 + Z.of_nat k)%Z.
  rewrite arange_up. rewrite <- (list_fmap_id (seq 0 k)) at 2.
  apply norm_axes_fmap, Forall_forall. intros i Hi%elem_of_seq.
  apply norm_axis_nat. unfold id. lia.
Qed.

Lemma norm_axes_trailing (nd k : nat) :
  k ≤ nd → norm_axes nd (arange (- Z.of_nat k) 0 1) = Some (seq (nd - k) k).
Proof.
  intros Hk. replace 0%Z with (- Z.of_nat k + Z.of_nat k)%Z at 1 by lia.
  rewrite arange_up.
  replace (seq (nd - k) k) with ((λ i, nd - k + i) <$> seq 0 k)
    by (rewrite fmap_add_seq; f_equal; lia).
  apply norm_axes_fmap, Forall_forall. intros i Hi%elem_of_seq.
  apply norm_axis_neg; lia.
Qed.

Lemma moveaxis_Some {A} (d : A) (a : ndarray A) (source destination : list Z)
    (src dst : list nat) :
  norm_axes (ndim a) source = Some src →
  norm_axes (ndim a) destination = Some dst →
  length src = length dst → NoDup src → NoDup dst →
  moveaxis d a source destination
  = Some (build
            (scatter dst (gather (shape a) src)
               (scatter (complement (ndim a) dst)
                  (gather (shape a) (complement (ndim a) src))
                  (replicate (ndim a) 0)))
            (λ idx, at_index d a
                      (scatter src (gather idx dst)
                         (scatter (complement (ndim a) src)
                            (gather idx (complement (ndim a) dst))
                            (replicate (ndim a) 0))))).
Proof.
  intros Hs Hd Hl Hns Hnd. unfold moveaxis. rewrite Hs, Hd. simpl.
  by rewrite decide_True by done.
Qed.

Section Contraction.
Context {K R : Type} `{!Scalars K R}.

Lemma tensordot_Some (a b : ndarray K) (axes_a axes_b : list Z) (ax_a ax_b : list nat) :
  norm_axes (ndim a) axes_a = Some ax_a →
  norm_axes (ndim b) axes_b = Some ax_b →
  gather (shape a) ax_a = gather (shape b) ax_b → NoDup ax_a → NoDup ax_b →
  tensordot a b axes_a axes_b
  = Some (build
            (gather (shape a) (complement (ndim a) ax_a)
             ++ gather (shape b) (complement (ndim b) ax_b))
            (λ idx,
               csum ((λ c,
                        cmul
                          (at_index czero a
                             (scatter (complement (ndim a) ax_a)
                                (take (length (complement (ndim a) ax_a)) idx)
                                (scatter ax_a c (replicate (ndim a) 0))))
                          (at_index czero b
                             (scatter (complement (ndim b) ax_b)
                                (drop (length (complement (ndim a) ax_a)) idx)
                                (scatter ax_b c (replicate (ndim b) 0)))))
                       <$> indices (gather (shape a) ax_a)))).
Proof.
  intros Ha Hb Hg Hna Hnb. unfold tensordot. rewrite Ha, Hb. simpl.
  by rewrite decide_True by done.
Qed.

Lemma in_bounds_replicate (b : list nat) (n d : nat) :
  in_bounds b (replicate n d) ↔ length b = n ∧ Forall (λ x, x < d) b.
Proof.
  unfold in_bounds. split.
  - intros Hb. split.
    + by rewrite (Forall2_length _ _ _ Hb), length_replicate.
    + apply Forall_forall. intros x Hx.
      apply list_elem_of_lookup in Hx as [i Hi].
      destruct (Forall2_lookup_l _ _ _ _ _ Hb Hi) as (y & Hy & Hlt).
      by apply lookup_replicate in Hy as [-> _].
  - intros [<- Hb]. induction Hb; simpl; constructor; auto.
Qed.

Lemma gather_bounded (b ps : list nat) (d : nat) :
  Forall (λ x, x < d) b → Forall (λ p, p < length b) ps →
  Forall (λ x, x < d) (gather b ps).
Proof.
  intros Hb Hps. unfold gather. apply Forall_fmap, Forall_forall. intros p Hp.
  rewrite Forall_forall in Hps. specialize (Hps p Hp). simpl.
  rewrite nth_lookup. destruct (lookup_lt_is_Some_2 b p Hps) as [x Hx].
  rewrite Hx. simpl. rewrite Forall_forall in Hb. apply Hb.
  by eapply list_elem_of_lookup_2.
Qed.

(** Steps 1 and 2 of the evaluator: contraction, then realignment. *)
Lemma statetensor_new_spec (G psi : ndarray K) (q : list nat) (n : nat) :
  shape G = replicate (2 * length q) 2 → shape psi = replicate n 2 →
  NoDup q → Forall (λ p, p < n) q →
  ∃ new, statetensor_new G q psi = Some new
         ∧ shape new = shape psi
         ∧ length (data new) = size new
         ∧ ∀ b, in_bounds b (shape psi) →
                at_index czero new b = spec_gate_applied G q psi b.
Proof.
  intros HG Hpsi Hnd Hq.
  set (k := length q) in *.
  assert (ndim G = k + k) as HndG by (unfold ndim; rewrite HG, length_replicate; lia).
  assert (ndim psi = n) as Hndpsi by (unfold ndim; by rewrite Hpsi, length_replicate).
  pose proof (length_complement n q Hnd Hq) as Hfree. fold k in Hfree.
  set (fr := complement n q) in *.
  assert (Forall (λ p, p < n) fr) as Hfr.
  { apply Forall_forall. intros p Hp. by apply elem_of_complement in Hp as [? _]. }
  assert (Forall (λ p, p < 2 * k) (seq k k)) as Hseq.
  { apply Forall_forall. intros p Hp%elem_of_seq. lia. }
  assert (Forall (λ p, p < 2 * k) (seq 0 k)) as Hseq0.
  { apply Forall_forall. intros p Hp%elem_of_seq. lia. }
  pose proof (gather_replicate _ 2 _ Hseq) as Hg1.
  pose proof (gather_replicate _ 2 _ Hseq0) as Hg0.
  pose proof (gather_replicate _ 2 _ Hq) as Hg2.
  pose proof (gather_replicate _ 2 _ Hfr) as Hg3.
  rewrite length_seq in Hg1, Hg0. fold k in Hg2.
  unfold statetensor_new.
  erewrite (tensordot_Some G psi _ _ (seq k k) q); cycle 1.
  { rewrite HndG. fold k. rewrite norm_axes_trailing by lia. do 2 f_equal. lia. }
  { rewrite Hndpsi. by apply norm_axes_qubits. }
  { by rewrite HG, Hpsi, Hg1, Hg2. }
  { apply NoDup_seq. }
  { done. }
  rewrite HndG, Hndpsi, complement_suffix. fold fr.
  rewrite HG, Hpsi, length_seq, Hg0, Hg1, Hg3.
  rewrite <- replicate_add.
  replace (k + length fr) with n by lia.
  simpl.
  assert (complement n (seq 0 k) = seq k (length fr)) as Hcs.
  { rewrite <- (complement_prefix k (length fr)). f_equal. lia. }
  assert (Forall (λ p, p < n) (seq 0 k)) as Hseqn.
  { apply Forall_forall. intros p Hp%elem_of_seq. lia. }
  pose proof (gather_replicate _ 2 _ Hseqn) as Hg4. rewrite length_seq in Hg4.
  assert (Forall (λ p, p < n) (seq k (length fr))) as Hseqf.
  { apply Forall_forall. intros p Hp%elem_of_seq. lia. }
  pose proof (gather_replicate _ 2 _ Hseqf) as Hg5. rewrite length_seq in Hg5.
  erewrite (moveaxis_Some _ _ _ _ (seq 0 k) q); cycle 1.
  { unfold ndim. simpl. rewrite length_replicate. fold k. apply norm_axes_leading. lia. }
  { unfold ndim. simpl. rewrite length_replicate. by apply norm_axes_qubits. }
  { by rewrite length_seq. }
  { apply NoDup_seq. }
  { done. }
  unfold ndim. cbn [shape build]. rewrite length_replicate. fold fr.
  assert (scatter q (replicate k 2)
            (scatter fr (replicate (length fr) 2) (replicate n 0))
          = replicate n 2) as Hshape.
  { rewrite <- Hg2, <- Hg3. apply (scatter_both n); by rewrite length_replicate. }
  rewrite Hcs, Hg4, Hg5, Hshape.
  eexists. split; [done|]. split; [done|]. split.
  { unfold size. simpl. by rewrite length_fmap, length_indices. }
  intros b Hb. rewrite at_build by done.
  apply in_bounds_replicate in Hb as [Hlen Hb2].
  assert (Forall (λ p, p < length b) q) as Hqb by (by rewrite Hlen).
  assert (Forall (λ p, p < length b) fr) as Hfrb by (by rewrite Hlen).
  rewrite (scatter_prefix_suffix k (length fr));
    [|by rewrite length_gather..|rewrite length_replicate; lia].
  rewrite at_build; cycle 1.
  { apply in_bounds_replicate. split.
    - rewrite length_app, !length_gather. fold k. lia.
    - apply Forall_app. split; by apply gather_bounded. }
  unfold spec_gate_applied. fold k. f_equal.
  apply list_fmap_ext. intros i c Hc.
  apply list_elem_of_lookup_2, elem_of_indices, in_bounds_replicate in Hc as [Hc _].
  rewrite take_app_length' by (by rewrite length_gather).
  rewrite drop_app_length' by (by rewrite length_gather).
  rewrite (scatter_prefix_suffix k k);
    [|by rewrite length_gather|done|by rewrite length_replicate].
  unfold fr. by rewrite (scatter_complement n) by (by rewrite ?length_replicate).
Qed.

Lemma at_conjugate (psi : ndarray K) (b : list nat) :
  wf psi → in_bounds b (shape psi) →
  at_index czero (conjugate psi) b = conj (at_index czero psi b).
Proof.
  intros Hwf Hb. unfold at_index, conjugate. simpl.
  rewrite !nth_lookup, list_lookup_fmap.
  destruct (lookup_lt_is_Some_2 (data psi) (ravel (shape psi) b)) as [x ->]; [|done].
  rewrite Hwf. by apply ravel_lt.
Qed.

Lemma scatter_all (c base : list nat) :
  length base = length c → scatter (seq 0 (length c)) c base = c.
Proof.
  intros Hl.
  rewrite <- (app_nil_r c) at 3.
  rewrite <- (scatter_prefix_suffix (length c) 0 c [] base) by (done || lia).
  done.
Qed.

(** Step 3: the conjugate inner product over every axis. *)
Lemma full_inner_product (psi new : ndarray K) :
  shape new = shape psi →
  ∃ res, tensordot (conjugate psi) new
           (arange 0 (Z.of_nat (ndim psi)) 1) (arange 0 (Z.of_nat (ndim psi)) 1)
         = Some res
         ∧ res
           = scalar (csum ((λ b, cmul (at_index czero (conjugate psi) b)
                                   (at_index czero new b))
                             <$> indices (shape psi))).
Proof.
  intros Hsh.
  assert (ndim new = ndim psi) as Hnd by (unfold ndim; by rewrite Hsh).
  assert (ndim (conjugate psi) = ndim psi) as Hndc by done.
  erewrite (tensordot_Some _ _ _ _ (seq 0 (ndim psi)) (seq 0 (ndim psi))); cycle 1.
  { rewrite Hndc. by apply norm_axes_leading. }
  { rewrite Hnd. by apply norm_axes_leading. }
  { by rewrite Hsh. }
  { apply NoDup_seq. }
  { apply NoDup_seq. }
  rewrite Hnd, Hndc.
  pose proof (complement_suffix 0 (ndim psi)) as Hcs.
  change (0 + ndim psi) with (ndim psi) in Hcs. rewrite Hcs.
  eexists. split; [done|].
  change (gather (shape (conjugate psi)) (seq 0 0) ++ gather (shape new) (seq 0 0))
    with (@nil nat).
  unfold build, scalar. cbn [indices fmap list_fmap]. do 2 f_equal.
  change (shape (conjugate psi)) with (shape psi).
  unfold ndim. rewrite gather_all. f_equal.
  apply list_fmap_ext. intros i c Hc.
  apply list_elem_of_lookup_2, elem_of_indices, in_bounds_length in Hc.
  simpl. rewrite <- Hc. by rewrite scatter_all by (by rewrite length_replicate).
Qed.

Lemma statetensor_to_single_expectation_spec (G psi : ndarray K) (q : list nat) (n : nat) :
  shape G = replicate (2 * length q) 2 → shape psi = replicate n 2 → wf psi →
  NoDup q → Forall (λ p, p < n) q →
  statetensor_to_single_expectation G q psi
  = Some (scalar (spec_expectation G q psi)).
Proof.
  intros HG Hpsi Hwf Hnd Hq.
  destruct (statetensor_new_spec G psi q n HG Hpsi Hnd Hq)
    as (new & Hnew & Hsh & _ & Hat).
  destruct (full_inner_product psi new Hsh) as (res & Hres & ->).
  unfold statetensor_to_single_expectation. rewrite Hnew. simpl.
  rewrite Hres. simpl. unfold real_part, scalar, spec_expectation. simpl.
  do 5 f_equal.
  apply list_fmap_ext. intros i b Hb.
  apply list_elem_of_lookup_2, elem_of_indices in Hb.
  by rewrite at_conjugate, Hat.
Qed.
End Contraction.

Lemma size_of_app (s1 s2 : list nat) : size_of (s1 ++ s2) = size_of s1 * size_of s2.
Proof. induction s1 as [|d s1 IH]; simpl; [lia|]. rewrite IH. lia. Qed.

Lemma size_of_replicate (k d : nat) : size_of (replicate k d) = d ^ k.
Proof. induction k as [|k IH]; simpl; [done|]. by rewrite IH. Qed.

Lemma ravel_app (s1 s2 i1 i2 : list nat) :
  length i1 = length s1 →
  ravel (s1 ++ s2) (i1 ++ i2) = ravel s1 i1 * size_of s2 + ravel s2 i2.
Proof.
  revert i1. induction s1 as [|d s1 IH]; intros [|x i1] Hl; simpl in *; try done.
  rewrite IH by lia. rewrite size_of_app. lia.
Qed.

Lemma in_bounds_snoc (idx s : list nat) (d : nat) :
  in_bounds idx (s ++ [d]) →
  ∃ idx' x, idx = idx' ++ [x] ∧ in_bounds idx' s ∧ x < d.
Proof.
  intros (idx' & l2 & H1 & H2 & ->)%Forall2_app_inv_r.
  apply Forall2_cons_inv_r in H2 as (x & l3 & Hx & ->%Forall2_nil_inv_r & ->).
  by exists idx', x.
Qed.

Lemma replicate_snoc (k d : nat) : replicate (S k) d = replicate k d ++ [d].
Proof. induction k as [|k IH]; [done|]. simpl in *. by rewrite <- IH. Qed.

Section Kron.
Context {K R : Type} `{!Scalars K R}.

(** [jnp.kron] of a square matrix with a 2x2 matrix. *)
Lemma kron_2x2 (a b : ndarray K) (m : nat) :
  shape a = [m; m] → shape b = [2; 2] →
  shape (kron a b) = [m * 2; m * 2]
  ∧ ∀ r c, r < m * 2 → c < m * 2 →
      at_index czero (kron a b) [r; c]
      = cmul (at_index czero a [r / 2; c / 2]) (at_index czero b [r mod 2; c mod 2]).
Proof.
  intros Ha Hb. unfold kron, ndim, pad_shape. rewrite Ha, Hb. simpl. split; [done|].
  intros r c Hr Hc. rewrite at_build by (repeat constructor; done).
  unfold at_index. simpl. by rewrite Ha, Hb.
Qed.

Lemma cprod_snoc (l : list K) (x : K) :
  l ≠ [] → cprod (l ++ [x]) = cmul (cprod l) x.
Proof. destruct l as [|y l]; [done|]. intros _. simpl. by rewrite foldl_snoc. Qed.

Lemma spec_entries_snoc (mats : list (ndarray K)) (m : ndarray K) (o i : list nat) (x y : nat) :
  length o = length mats → length i = length mats →
  spec_entries (mats ++ [m]) (o ++ [x]) (i ++ [y])
  = spec_entries mats o i ++ [at_index czero m [x; y]].
Proof.
  intros Ho Hi. unfold spec_entries.
  rewrite (zip_with_app pair o [x] i [y]) by lia.
  rewrite (zip_with_app pair mats [m]) by (rewrite length_zip_with; lia).
  by rewrite fmap_app.
Qed.

(** The left fold of [kron] over 2x2 matrices, entry by entry. *)
Lemma foldl_kron_entries (g0 : ndarray K) (rest : list (ndarray K)) :
  Forall (λ g, shape g = [2; 2]) (g0 :: rest) →
  let k := S (length rest) in
  shape (foldl kron g0 rest) = [2 ^ k; 2 ^ k]
  ∧ ∀ o i, in_bounds o (replicate k 2) → in_bounds i (replicate k 2) →
      at_index czero (foldl kron g0 rest)
        [ravel (replicate k 2) o; ravel (replicate k 2) i]
      = cprod (spec_entries (g0 :: rest) o i).
Proof.
  induction rest as [|m rest IH] using rev_ind; intros Hsh k.
  - apply Forall_cons in Hsh as [Hg0 _]. split; [done|].
    intros o i Ho Hi. subst k. simpl in *.
    apply Forall2_cons_inv_r in Ho as (x & ? & Hx & ->%Forall2_nil_inv_r & ->).
    apply Forall2_cons_inv_r in Hi as (y & ? & Hy & ->%Forall2_nil_inv_r & ->).
    simpl. by rewrite !Nat.mul_1_r, !Nat.add_0_r.
  - rewrite app_comm_cons in Hsh. apply Forall_app in Hsh as [Hsh Hm].
    rewrite Forall_singleton in Hm.
    destruct (IH Hsh) as [IHsh IHat]. clear IH.
    rewrite foldl_snoc.
    destruct (kron_2x2 _ m _ IHsh Hm) as [Hksh Hkat].
    subst k. rewrite length_app. simpl length.
    replace (S (length rest + 1)) with (S (S (length rest))) by lia.
    set (k := S (length rest)) in *.
    split; [rewrite Hksh; simpl; f_equal; [lia|f_equal; lia]|].
    intros o i Ho Hi. rewrite replicate_snoc in Ho, Hi |- *.
    apply in_bounds_snoc in Ho as (o' & x & -> & Ho & Hx).
    apply in_bounds_snoc in Hi as (i' & y & -> & Hi & Hy).
    pose proof (in_bounds_length _ _ Ho) as Hlo. rewrite length_replicate in Hlo.
    pose proof (in_bounds_length _ _ Hi) as Hli. rewrite length_replicate in Hli.
    assert (length o' = length (g0 :: rest)) as Hlo' by (simpl; lia).
    assert (length i' = length (g0 :: rest)) as Hli' by (simpl; lia).
    clearbody k.
    rewrite !ravel_app by (by rewrite length_replicate).
    change (ravel [2] [x]) with (x * 1 + 0). change (ravel [2] [y]) with (y * 1 + 0).
    change (size_of [2]) with (2 * 1).
    pose proof (ravel_lt _ _ Ho) as Hro. pose proof (ravel_lt _ _ Hi) as Hri.
    rewrite size_of_replicate in Hro, Hri.
    rewrite Hkat by lia.
    replace ((ravel (replicate k 2) o' * (2 * 1) + (x * 1 + 0)) / 2)
      with (ravel (replicate k 2) o') by (apply Nat.div_unique with x; lia).
    replace ((ravel (replicate k 2) i' * (2 * 1) + (y * 1 + 0)) / 2)
      with (ravel (replicate k 2) i') by (apply Nat.div_unique with y; lia).
    replace ((ravel (replicate k 2) o' * (2 * 1) + (x * 1 + 0)) mod 2)
      with x by (apply Nat.mod_unique with (ravel (replicate k 2) o'); lia).
    replace ((ravel (replicate k 2) i' * (2 * 1) + (y * 1 + 0)) mod 2)
      with y by (apply Nat.mod_unique with (ravel (replicate k 2) i'); lia).
    rewrite IHat by done.
    rewrite app_comm_cons, spec_entries_snoc by done.
    rewrite cprod_snoc; [done|].
    destruct o' as [|? ?], i' as [|? ?]; done.
Qed.
End Kron.

Section GateTensor.
Context {K R : Type} `{!Scalars K R}.
Variable log2_trunc : nat → nat.
Variable gates : string → option (ndarray K).

(** An array of [2^n] entries is reshaped to rank [n] when the truncated
    logarithm of its size is [n], and refused otherwise. *)
Lemma as_qubit_tensor_pow2 (a : ndarray K) (n : nat) :
  size a = 2 ^ n → log2_trunc (2 ^ n) = n →
  as_qubit_tensor log2_trunc a = Some (NDArray (replicate n 2) (data a)).
Proof.
  intros Hs Hlog. unfold as_qubit_tensor, int_log2, reshape. rewrite Hs.
  assert (2 ^ n ≠ 0) by (apply Nat.pow_nonzero; lia).
  rewrite decide_False by done. cbn [mbind option_bind].
  rewrite Hlog. by rewrite decide_True by apply size_of_replicate.
Qed.

Lemma as_qubit_tensor_2x2 (m : ndarray K) :
  log2_trunc 4 = 2 → shape m = [2; 2] → as_qubit_tensor log2_trunc m = Some m.
Proof.
  intros Hlog Hm. rewrite (as_qubit_tensor_pow2 m 2).
  - destruct m as [sh dt]. simpl in *. by subst.
  - unfold size. by rewrite Hm.
  - done.
Qed.

Lemma as_qubit_tensor_square (a : ndarray K) (k : nat) :
  shape a = [2 ^ k; 2 ^ k] → log2_trunc (2 ^ (2 * k)) = 2 * k →
  as_qubit_tensor log2_trunc a = Some (NDArray (replicate (2 * k) 2) (data a)).
Proof.
  intros Ha Hlog. apply as_qubit_tensor_pow2; [|done].
  unfold size. rewrite Ha. simpl. rewrite Nat.mul_1_r, Nat.add_0_r.
  by rewrite Nat.pow_add_r.
Qed.

(** C5 (amended): for every non-empty sequence of [k] gates that resolve to
    2x2 matrices, when [int(jnp.log2(size))] is the exact logarithm for the
    sizes that are reshaped ([4] for each matrix, [4^k] for the product),
    the assembled tensor has rank [2k], stores the Kronecker product of the
    matrices in sequence order, and its entry at output bits [o] (first [k]
    axes) and input bits [i] (last [k] axes) is the product over [j] of the
    [(o_j, i_j)] entry of the [j]-th matrix. *)
Theorem gate_tensor_kronecker (gate_seq : list (gate_spec K)) (mats : list (ndarray K)) :
  gate_seq ≠ [] →
  Forall2 (λ gate m, gate_array gates gate = Some m ∧ shape m = [2; 2]) gate_seq mats →
  log2_trunc 4 = 2 →
  log2_trunc (2 ^ (2 * length gate_seq)) = 2 * length gate_seq →
  ∃ T m0 rest,
    get_gate_tensor log2_trunc gates gate_seq = Some T
    ∧ mats = m0 :: rest
    ∧ shape T = replicate (2 * length gate_seq) 2
    ∧ data T = data (foldl kron m0 rest)
    ∧ ∀ o i, in_bounds o (replicate (length gate_seq) 2) →
             in_bounds i (replicate (length gate_seq) 2) →
             at_index czero T (o ++ i) = cprod (spec_entries mats o i).
Proof.
  intros Hne Hres Hlog4 Hlog.
  assert (mapM (gate_array gates) gate_seq = Some mats) as Hm1.
  { apply mapM_Some_2. eapply Forall2_impl; [done|]. by intros ? ? [? _]. }
  assert (Forall (λ m, shape m = [2; 2]) mats) as Hsh.
  { apply Forall_forall. intros m Hm. apply list_elem_of_lookup in Hm as [j Hj].
    destruct (Forall2_lookup_r _ _ _ _ _ Hres Hj) as (g & _ & _ & Hs). done. }
  assert (mapM (as_qubit_tensor log2_trunc) mats = Some mats) as Hm2.
  { apply mapM_Some_2. clear Hres Hm1. induction Hsh; constructor; auto.
    by apply as_qubit_tensor_2x2. }
  pose proof (Forall2_length _ _ _ Hres) as Hlen.
  destruct mats as [|m0 rest]; [by destruct gate_seq|].
  destruct (foldl_kron_entries m0 rest Hsh) as [Hfsh Hfat].
  unfold get_gate_tensor. rewrite Hm1. cbn [mbind option_bind].
  rewrite Hm2. cbn [mbind option_bind].
  simpl in Hlen. rewrite Hlen in Hlog |- *.
  rewrite (as_qubit_tensor_square _ _ Hfsh Hlog).
  eexists _, m0, rest. split; [done|]. split; [done|]. split; [done|]. split; [done|].
  intros o i Ho Hi. rewrite <- Hfat by done.
  pose proof (in_bounds_length _ _ Ho) as Hlo. rewrite length_replicate in Hlo.
  pose proof (ravel_lt _ _ Hi) as Hri. rewrite size_of_replicate in Hri.
  unfold at_index. rewrite Hfsh. cbn [shape data].
  replace (2 * S (length rest)) with (S (length rest) + S (length rest)) by lia.
  rewrite replicate_add, ravel_app by (by rewrite length_replicate).
  rewrite size_of_replicate. f_equal.
  generalize (ravel (replicate (S (length rest)) 2) o).
  generalize (ravel (replicate (S (length rest)) 2) i).
  generalize (2 ^ S (length rest)). intros p ri ro. simpl. lia.
Qed.
End GateTensor.

(** The claim as stated fails on the empty sequence: [single_gate_arrs[0]]
    raises. *)
Lemma gate_tensor_empty_sequence :
  ¬ ∃ T, get_gate_tensor exact_log2 pauli_gates [] = Some T.
Proof. intros [T HT]. discriminate HT. Qed.

Lemma gate_tensor_kronecker_witness :
  ∃ T m0 rest,
    get_gate_tensor exact_log2 pauli_gates [GateName "Z"; GateArray pauli_X] = Some T
    ∧ [pauli_Z; pauli_X] = m0 :: rest
    ∧ shape T = replicate (2 * 2) 2
    ∧ data T = data (foldl kron m0 rest)
    ∧ ∀ o i, in_bounds o (replicate 2 2) → in_bounds i (replicate 2 2) →
             at_index czero T (o ++ i) = cprod (spec_entries [pauli_Z; pauli_X] o i).
Proof.
  apply (gate_tensor_kronecker exact_log2 pauli_gates
           [GateName "Z"; GateArray pauli_X] [pauli_Z; pauli_X]).
  - done.
  - repeat constructor.
  - reflexivity.
  - reflexivity.
Defined.

Section Combiner.
Context {K R : Type} `{!Scalars K R}.
Variable log2_trunc : nat → nat.
Variable gates : string → option (ndarray K).

Lemma apply_gate_funcs_Some (terms : list (list (gate_spec K)))
    (tensors : list (ndarray K)) (qubits : list (list nat)) :
  Forall2 (λ t g, get_gate_tensor log2_trunc gates t = Some g) terms tensors →
  mapM (λ gq, g ← get_gate_tensor log2_trunc gates gq.1;
              Some (statetensor_to_single_expectation g gq.2))
       (zip terms qubits)
  = Some ((λ gq, statetensor_to_single_expectation gq.1 gq.2) <$> zip tensors qubits).
Proof.
  intros Hall. revert qubits.
  induction Hall as [|t g terms tensors Hg _ IH]; intros [|q qubits]; try done.
  simpl. rewrite Hg. simpl. by rewrite IH.
Qed.

(** Adding a scaled zero-dimensional value to a zero-dimensional one. *)
Lemma add_arrays_scalar (out coeff e : R) :
  add_arrays (scalar out) (scale coeff (scalar e))
  = Some (scalar (radd out (rmul coeff e))).
Proof. reflexivity. Qed.

Lemma expectation_loop (funcs : list (ndarray K → option (ndarray R))) (vals : list R)
    (psi : ndarray K) (coefficients : list R) (acc : R) :
  Forall2 (λ f e, f psi = Some (scalar e)) funcs vals →
  foldl (λ out cf, out ← out; e ← cf.2 psi; add_arrays out (scale cf.1 e))
    (Some (scalar acc)) (zip coefficients funcs)
  = Some (scalar (foldl (λ out ce, radd out (rmul ce.1 ce.2)) acc
                    (zip coefficients vals))).
Proof.
  intros Hall. revert coefficients acc.
  induction Hall as [|f e funcs vals Hf _ IH]; intros [|c coefficients] acc; try done.
  simpl. rewrite Hf. cbn [mbind option_bind]. rewrite add_arrays_scalar. apply IH.
Qed.

(** C2: the function built from equal-length sequences of terms, qubit
    lists and coefficients returns the sum of [coefficients[i]] times the
    i-th single-term expectation (a zero-dimensional value), added in
    order starting from zero; with no terms it returns zero, and with two
    terms and coefficients [a], [b] it returns [a * evalA + b * evalB]. *)
Theorem expectation_is_weighted_sum (terms : list (list (gate_spec K)))
    (qubits : list (list nat)) (coefficients : list R)
    (tensors : list (ndarray K)) (vals : list R) (psi : ndarray K) :
  length qubits = length terms → length coefficients = length terms →
  Forall2 (λ t g, get_gate_tensor log2_trunc gates t = Some g) terms tensors →
  Forall2 (λ gq e, statetensor_to_single_expectation gq.1 gq.2 psi = Some (scalar e))
    (zip tensors qubits) vals →
  ∃ f, get_statetensor_to_expectation_func log2_trunc gates terms qubits coefficients = Some f
       ∧ f psi = Some (scalar (weighted_sum coefficients vals))
       ∧ (terms = [] → f psi = Some (scalar rzero))
       ∧ ∀ a b eA eB, (∀ x, radd rzero x = x) →
           coefficients = [a; b] → vals = [eA; eB] →
           f psi = Some (scalar (radd (rmul a eA) (rmul b eB))).
Proof.
  intros Hq Hc Hterms Hvals.
  unfold get_statetensor_to_expectation_func.
  rewrite (apply_gate_funcs_Some _ _ _ Hterms). cbn [mbind option_bind].
  eexists. split; [done|].
  assert (statetensor_to_expectation_func coefficients
            ((λ gq, statetensor_to_single_expectation gq.1 gq.2) <$> zip tensors qubits)
            psi = Some (scalar (weighted_sum coefficients vals))) as Hsum.
  { apply expectation_loop. by apply Forall2_fmap_l. }
  split; [done|]. split.
  - intros ->. destruct coefficients; done.
  - intros a b eA eB H0 -> ->. rewrite Hsum. unfold weighted_sum. simpl.
    by rewrite H0.
Qed.

(** C8 (amended): sequences of different lengths are not rejected.  The
    terms are paired with the qubit lists up to the shorter of the two,
    the coefficients with the resulting term functions up to the shorter
    of those, and what is left over is ignored. *)
Theorem mismatched_lengths_are_truncated (terms : list (list (gate_spec K)))
    (qubits : list (list nat)) (coefficients : list R)
    (funcs : list (ndarray K → option (ndarray R))) (psi : ndarray K) :
  get_statetensor_to_expectation_func log2_trunc gates terms qubits coefficients
  = get_statetensor_to_expectation_func log2_trunc gates
      (take (length qubits) terms) (take (length terms) qubits) coefficients
  ∧ statetensor_to_expectation_func coefficients funcs psi
    = statetensor_to_expectation_func
        (take (length funcs) coefficients) (take (length coefficients) funcs) psi.
Proof.
  unfold get_statetensor_to_expectation_func, statetensor_to_expectation_func.
  assert (∀ {A B} (l : list A) (k : list B),
            zip l k = zip (take (length k) l) (take (length l) k)) as Hzip.
  { intros A B l. induction l as [|x l IH]; intros [|y k]; simpl; [done..|].
    by rewrite <- IH. }
  by rewrite <- !Hzip.
Qed.
End Combiner.

(** One term and one qubit list with two coefficients: a function is built
    and it returns a value. *)
Lemma mismatched_lengths_accepted :
  length (take 1 terms_ex) ≠ length [3; 5]%Z
  ∧ ∃ f, get_statetensor_to_expectation_func exact_log2 pauli_gates
           (take 1 terms_ex) [[0; 1]] [3; 5]%Z = Some f
         ∧ f ket01 = Some (scalar (-3)%Z).
Proof. split; [done|]. eexists. split; reflexivity. Qed.

Lemma expectation_is_weighted_sum_witness :
  ∃ f, get_statetensor_to_expectation_func exact_log2 pauli_gates
         terms_ex [[0; 1]; [1]] [3; 5]%Z = Some f
       ∧ f ket01 = Some (scalar (-8)%Z).
Proof.
  destruct (expectation_is_weighted_sum exact_log2 pauli_gates terms_ex [[0; 1]; [1]] [3; 5]%Z
              [gate_ZZ; pauli_Z] [-1; -1]%Z ket01) as (f & Hf & Hv & _).
  - reflexivity.
  - reflexivity.
  - repeat constructor.
  - repeat constructor.
  - exists f. split; [exact Hf | exact Hv].
Defined.

Section Sampler.
Context {K R : Type} `{!Scalars K R} {Key : Type}.

(** What [sample_bitstrings] returns: the table of the digits of the drawn
    indices, one row per draw, passed through [squeeze]. *)
Lemma sample_bitstrings_table (rc : Key → list Z → nat → list R → list Z)
    (key : Key) (psi : ndarray K) (m : nat) :
  sample_bitstrings rc key psi m
  = Some (squeeze (NDArray [m; ndim psi]
                     (v ← data (sample_integers rc key psi m);
                      be_digits (ndim psi) (v mod 2 ^ 31)))).
Proof.
  unfold sample_bitstrings. rewrite integers_to_bitstrings_width.
  - replace (size (atleast_1d (sample_integers rc key psi m))) with m; [done|].
    unfold size. simpl. lia.
  - apply Forall_fmap, Forall_forall. intros v _. apply wrap32_int32.
Qed.

(** C6 (code bug): two draws from a one-qubit statetensor come back with
    shape [(2,)], not the documented [(n_samps, ndim) = (2, 1)]; decoded,
    they read as one two-bit string.  One draw from a two-qubit
    statetensor comes back with shape [(2,)], not [(1, 2)]. *)
Theorem sample_bitstrings_squeezed (rc : Key → list Z → nat → list R → list Z)
    (key : Key) (amps : list K) :
  (∃ out, sample_bitstrings rc key (NDArray [2] amps) 2 = Some out
          ∧ shape out = [2] ∧ shape out ≠ [2; 1]
          ∧ shape (bitstrings_to_integers out) = [])
  ∧ (∃ out, sample_bitstrings rc key (NDArray [2; 2] amps) 1 = Some out
            ∧ shape out = [2] ∧ shape out ≠ [1; 2]).
Proof.
  split; rewrite sample_bitstrings_table; eexists; (split; [done|]); done.
Qed.

End Sampler.

(** With [nbits] omitted the call is the one with the width
    [(nbits - 1) + 1], the subtraction done in the integer type. *)
Lemma integers_to_bitstrings_inferred (a : ndarray Z) (mx : Z) :
  array_max (data a) = Some mx →
  integers_to_bitstrings a None
  = integers_to_bitstrings a
      (Some (wrap32 (astype_int (ceil_log2_eps mx) - 1) + 1)%Z).
Proof.
  intros Hmax. unfold integers_to_bitstrings, shift_amounts, as_int32.
  case_decide as Hint; [|done]. cbn [mbind option_bind].
  rewrite data_atleast_1d, Hmax. cbn [mbind option_bind].
  by rewrite Z.add_simpl_r.
Qed.

Lemma be_digits_zero (n : nat) : be_digits n 0 = replicate n 0%Z.
Proof.
  unfold be_digits. apply list_eq. intros i.
  rewrite list_lookup_fmap. destruct (decide (i < n)) as [Hi|Hi].
  - rewrite lookup_seq_lt, lookup_replicate_2 by done. simpl.
    by rewrite Z.div_0_l by (apply Z.pow_nonzero; lia).
  - rewrite lookup_seq_ge by lia. symmetry. apply lookup_replicate_None. lia.
Qed.

(** C7 (code bug): with [nbits] omitted and maximum value 0, the inferred
    width is the cast of [-inf], the least value of the integer type;
    [nbits - 1] wraps around to [2^31 - 1], so the call is the one with
    [nbits = 2^31]: it asks for [2^31] columns, and what it returns, if
    the table can be built, is a row of [2^31] digits 0, where a width of
    1 gives the single digit 0. *)
Theorem inferred_width_of_zero :
  integers_to_bitstrings (scalar 0%Z) None
  = integers_to_bitstrings (scalar 0%Z) (Some (2 ^ 31)%Z)
  ∧ (∃ amounts, shift_amounts (atleast_1d (scalar 0%Z)) None = Some amounts
                ∧ Z.of_nat (length amounts) = (2 ^ 31)%Z)
  ∧ (∀ out, integers_to_bitstrings (scalar 0%Z) None = Some out →
            shape out = [Z.to_nat (2 ^ 31)]
            ∧ data out = replicate (Z.to_nat (2 ^ 31)) 0%Z)
  ∧ integers_to_bitstrings (scalar 0%Z) (Some 1%Z) = Some (scalar 0%Z).
Proof.
  assert (integers_to_bitstrings (scalar 0%Z) None
          = integers_to_bitstrings (scalar 0%Z) (Some (2 ^ 31)%Z)) as Heq.
  { by rewrite (integers_to_bitstrings_inferred _ 0). }
  remember (Z.to_nat (2 ^ 31)) as N eqn:HN.
  assert (N ≠ 1) as HN1 by lia.
  assert ((2 ^ 31)%Z = Z.of_nat N) as HZ by lia.
  split; [exact Heq|]. split; [|split; [|reflexivity]].
  - exists (arange (Z.of_nat N - 1) (-1) (-1)). split.
    + rewrite <- HZ. reflexivity.
    + rewrite arange_down, length_fmap, length_seq. lia.
  - rewrite Heq, HZ. clear HN Heq HZ.
    rewrite integers_to_bitstrings_scalar by lia. rewrite decide_False by done.
    intros out [= <-]. split; [done|]. apply be_digits_zero.
Qed.

Section SingleTerm.
Context {K R : Type} `{!Scalars K R}.

(** C1: for a gate tensor [G] of rank [2k], [k] distinct qubit indices [q]
    below [n] and a statetensor of rank [n], the evaluator contracts the
    last [k] axes of [G] with the axes [q] of the statetensor in the given
    order, puts the result axes back at the positions [q] (so the new
    tensor has the shape of the statetensor), and returns the real part of
    the full conjugate inner product of the statetensor with it. *)
Theorem single_expectation_contracts (G psi : ndarray K) (q : list nat) (n : nat) :
  shape G = replicate (2 * length q) 2 → shape psi = replicate n 2 → wf psi →
  NoDup q → Forall (λ p, p < n) q →
  (∃ new, statetensor_new G q psi = Some new
          ∧ shape new = shape psi ∧ wf new
          ∧ ∀ b, in_bounds b (shape psi) →
                 at_index czero new b = spec_gate_applied G q psi b)
  ∧ statetensor_to_single_expectation G q psi
    = Some (scalar (spec_expectation G q psi)).
Proof.
  intros HG Hpsi Hwf Hnd Hq. split.
  - by apply (statetensor_new_spec G psi q n).
  - by apply (statetensor_to_single_expectation_spec G psi q n).
Qed.
End SingleTerm.

Lemma single_expectation_contracts_witness :
  (∃ new, statetensor_new gate_ZX [1; 0] ket01 = Some new
          ∧ shape new = shape ket01 ∧ wf new
          ∧ ∀ b, in_bounds b (shape ket01) →
                 at_index czero new b = spec_gate_applied gate_ZX [1; 0] ket01 b)
  ∧ statetensor_to_single_expectation gate_ZX [1; 0] ket01
    = Some (scalar (spec_expectation gate_ZX [1; 0] ket01)).
Proof.
  apply (single_expectation_contracts gate_ZX ket01 [1; 0] 2).
  - reflexivity.
  - reflexivity.
  - reflexivity.
  - compute_done.
  - compute_done.
Defined.

Example ex_expectation_ZX :
  statetensor_new gate_ZX [1; 0] ket01 = Some (NDArray [2; 2] (gint <$> [0; 0; 0; -1]%Z))
  ∧ spec_expectation gate_ZX [1; 0] ket01 = 0%Z.
Proof. split; reflexivity. Qed.

(** * Further properties *)

(** ** The codec on arrays *)

Lemma length_bind_blocks {A B} (g : A → list B) (l : list A) (n : nat) :
  (∀ x, length (g x) = n) → length (l ≫= g) = length l * n.
Proof.
  intros Hg. induction l as [|x l IH]; [done|].
  rewrite bind_cons, length_app, Hg, IH. simpl. lia.
Qed.

Lemma rows_bind {A B} (g : A → list B) (l : list A) (n : nat) :
  (∀ x, length (g x) = n) → rows (length l) n (l ≫= g) = g <$> l.
Proof.
  intros Hg. apply list_eq. intros i. unfold rows.
  rewrite !list_lookup_fmap.
  destruct (decide (i < length l)) as [Hi|Hi].
  - rewrite lookup_seq_lt by done. simpl.
    destruct (lookup_lt_is_Some_2 l i Hi) as [x Hx]. rewrite Hx. simpl. f_equal.
    apply list_eq. intros j.
    destruct (decide (j < n)) as [Hj|Hj].
    + rewrite lookup_take_lt, lookup_drop by done.
      rewrite (lookup_bind_blocks g l n i j) by done. by rewrite Hx.
    + rewrite lookup_take_ge by lia. symmetry. apply lookup_ge_None_2.
      rewrite Hg. lia.
  - rewrite lookup_seq_ge by lia. by rewrite lookup_ge_None_2 by lia.
Qed.

Lemma squeeze_table {A} (m n : nat) (l : list A) :
  m ≠ 1 → n ≠ 1 → squeeze (NDArray [m; n] l) = NDArray [m; n] l.
Proof.
  intros Hm Hn. unfold squeeze. simpl. f_equal.
  by rewrite !filter_cons_True by done.
Qed.

Lemma squeeze_vector {A} (m : nat) (l : list A) :
  squeeze (NDArray [m] l) = NDArray (if decide (m = 1) then [] else [m]) l.
Proof.
  unfold squeeze. simpl. f_equal. destruct (decide (m = 1)) as [->|Hm].
  - by rewrite filter_cons_False by (intros ?; done).
  - by rewrite filter_cons_True by done.
Qed.

Lemma be_value_digits_small (n : nat) (v : Z) :
  (0 ≤ v < 2 ^ Z.of_nat n)%Z → be_value (be_digits n v) = v.
Proof. intros Hv. by rewrite be_value_digits, Z.mod_small. Qed.

Lemma batch_encode (m n : nat) (vs : list Z) :
  m ≠ 1 → n ≠ 1 → Forall (λ v, 0 ≤ v < 2 ^ 31)%Z vs →
  integers_to_bitstrings (NDArray [m] vs) (Some (Z.of_nat n))
  = Some (NDArray [m; n] (vs ≫= be_digits n)).
Proof.
  intros Hm Hn Hvs. rewrite integers_to_bitstrings_nonneg by done.
  replace (size (atleast_1d (NDArray [m] vs))) with m by (unfold size; simpl; lia).
  by rewrite squeeze_table.
Qed.

Lemma batch_decode (n : nat) (vs : list Z) :
  length vs ≠ 1 → Forall (λ v, 0 ≤ v < 2 ^ Z.of_nat n ∧ v < 2 ^ 31)%Z vs →
  bitstrings_to_integers (NDArray [length vs; n] (vs ≫= be_digits n))
  = NDArray [length vs] vs.
Proof.
  intros Hm Hvs. rewrite Forall_forall in Hvs.
  rewrite (bitstrings_to_integers_table _ _ _ be_value).
  - rewrite rows_bind by apply length_be_digits.
    rewrite squeeze_vector, decide_False by done. f_equal.
    rewrite <- list_fmap_compose. rewrite <- (list_fmap_id vs) at 2.
    apply list_fmap_ext. intros i v Hv. simpl.
    destruct (Hvs v) as [Hv1 Hv2]; [by eapply list_elem_of_lookup_2|].
    by rewrite be_value_digits_small.
  - intros row. rewrite rows_bind by apply length_be_digits.
    intros (v & -> & Hv)%list_elem_of_fmap. destruct (Hvs v Hv) as [Hv1 Hv2].
    rewrite dot_digits by lia. by rewrite be_value_digits.
Qed.

(** X1: encoding a batch of [m] values of the integer type on [n] bits, with
    [m] and [n] other than 1, gives one row of digits per value, and
    decoding the rows gives the batch back. *)
Theorem codec_round_trip_batch (m n : nat) (vs : list Z) :
  length vs = m → m ≠ 1 → n ≠ 1 → (Z.of_nat n ≤ 2 ^ 31)%Z →
  Forall (λ v, 0 ≤ v < 2 ^ Z.of_nat n ∧ v < 2 ^ 31)%Z vs →
  ∃ bits, integers_to_bitstrings (NDArray [m] vs) (Some (Z.of_nat n)) = Some bits
          ∧ bits = NDArray [m; n] (vs ≫= be_digits n)
          ∧ rows m n (data bits) = be_digits n <$> vs
          ∧ bitstrings_to_integers bits = NDArray [m] vs.
Proof.
  intros Hlen Hm Hn _ Hvs. eexists. split.
  { apply batch_encode; [done..|]. eapply Forall_impl; [exact Hvs|].
    intros v Hv. simpl in Hv. lia. }
  split; [done|]. cbn [data]. subst m.
  split; [apply rows_bind, length_be_digits|]. by apply batch_decode.
Qed.

Lemma codec_round_trip_batch_witness :
  bitstrings_to_integers (NDArray [3; 2] ([2; 0; 3]%Z ≫= be_digits 2))
  = NDArray [3] [2; 0; 3]%Z.
Proof.
  destruct (codec_round_trip_batch 3 2 [2; 0; 3]%Z) as (bits & _ & -> & _ & H).
  - reflexivity.
  - lia.
  - lia.
  - simpl. lia.
  - repeat constructor; simpl; lia.
  - exact H.
Defined.

Lemma be_digits_low (n k : nat) (v : Z) :
  n ≤ k → be_digits n (v mod 2 ^ Z.of_nat k) = be_digits n v.
Proof.
  intros Hnk. unfold be_digits. apply list_fmap_ext. intros i x Hx.
  apply lookup_seq in Hx as [-> Hi]. simpl.
  rewrite <- !Z.testbit_spec' by lia.
  by rewrite Z.mod_pow2_bits_low by lia.
Qed.

Lemma bind_be_digits_1 (vs : list Z) :
  vs ≫= (λ v, be_digits 1 (v mod 2 ^ 31)) = (λ x, x mod 2)%Z <$> vs.
Proof.
  induction vs as [|x vs IH]; [done|]. rewrite bind_cons, fmap_cons, IH.
  rewrite (be_digits_low 1 31) by lia.
  unfold be_digits. simpl. by rewrite Z.div_1_r.
Qed.

(** X2: the batch is lost when [squeeze] removes an axis: a one-element array
    comes back as a scalar, and several values (at most 31) on one bit come
    back as the single integer whose digits are their low bits. *)
Theorem codec_round_trip_squeezed (n : nat) (v : Z) (vs : list Z) :
  (Z.of_nat n ≤ 2 ^ 31)%Z → (0 ≤ v < 2 ^ Z.of_nat n)%Z → (v < 2 ^ 31)%Z →
  length vs ≠ 1 → length vs ≤ 31 → Forall int32 vs →
  (∃ bits, integers_to_bitstrings (NDArray [1] [v]) (Some (Z.of_nat n)) = Some bits
           ∧ bitstrings_to_integers bits = scalar v)
  ∧ (∃ bits, integers_to_bitstrings (NDArray [length vs] vs) (Some 1%Z) = Some bits
             ∧ shape bits = [length vs]
             ∧ bitstrings_to_integers bits
               = scalar (be_value ((λ x, x mod 2)%Z <$> vs))).
Proof.
  intros _ Hv Hv32 Hvs Hlen Hint. split.
  - eexists. split.
    { rewrite integers_to_bitstrings_nonneg by (constructor; [lia|constructor]).
      simpl. by rewrite app_nil_r, squeeze_row. }
    apply bitstrings_to_integers_row.
    + rewrite length_be_digits. destruct (decide (n = 1)); auto.
    + rewrite length_be_digits, dot_digits by lia. by apply Z.mod_small.
  - exists (NDArray [length vs] ((λ x, x mod 2)%Z <$> vs)). split.
    { change 1%Z with (Z.of_nat 1). rewrite integers_to_bitstrings_width by done.
      replace (size (atleast_1d (NDArray [length vs] vs))) with (length vs)
        by (unfold size; simpl; lia).
      rewrite bind_be_digits_1. unfold squeeze. cbn [shape data].
      rewrite filter_cons_True by done.
      by rewrite filter_cons_False by (intros ?; done). }
    split; [done|].
    apply bitstrings_to_integers_row; [right; by rewrite length_fmap|].
    apply dot_row; [|by rewrite length_fmap].
    apply Forall_fmap, Forall_forall. intros x _. simpl. unfold binary.
    pose proof (Z.mod_pos_bound x 2). lia.
Qed.

Lemma be_digits_value (row : list Z) :
  Forall binary row → be_digits (length row) (be_value row) = row.
Proof.
  induction 1 as [|b row Hb Hrow IH]; [done|].
  pose proof (be_value_range row Hrow) as Hr.
  simpl length. rewrite be_digits_S, be_value_cons. f_equal.
  - rewrite Z.div_add_l by lia. rewrite Z.div_small by done.
    destruct Hb as [-> | ->]; done.
  - rewrite <- be_digits_mod.
    rewrite Z.add_comm, Z.mod_add by lia. rewrite Z.mod_small by done. apply IH.
Qed.

(** X3: a row of [n] binary digits, [n] at most 31 so that its value is of
    the integer type, decodes to an integer in [[0, 2^n)], and (for [n]
    other than 1) encoding that integer on [n] bits returns the row. *)
Theorem codec_decode_encode (row : list Z) :
  Forall (λ b, b = 0%Z ∨ b = 1%Z) row → length row ≠ 1 → length row ≤ 31 →
  ∃ v, bitstrings_to_integers (NDArray [length row] row) = scalar v
       ∧ (0 ≤ v < 2 ^ Z.of_nat (length row))%Z
       ∧ integers_to_bitstrings (scalar v) (Some (Z.of_nat (length row)))
         = Some (NDArray [length row] row).
Proof.
  intros Hrow Hn Hlen. exists (be_value row).
  destruct (be_value_int32 row Hrow Hlen) as [Hr32 Hw].
  split.
  { apply bitstrings_to_integers_row; [auto|]. by apply dot_row. }
  split; [by apply be_value_range|].
  rewrite integers_to_bitstrings_scalar, decide_False by done.
  by rewrite be_digits_value.
Qed.

Lemma codec_decode_encode_witness :
  ∃ v, bitstrings_to_integers (NDArray [3] [1; 1; 0]%Z) = scalar v
       ∧ (0 ≤ v < 2 ^ Z.of_nat 3)%Z
       ∧ integers_to_bitstrings (scalar v) (Some (Z.of_nat 3))
         = Some (NDArray [3] [1; 1; 0]%Z).
Proof.
  apply (codec_decode_encode [1; 1; 0]%Z).
  - repeat (constructor; [lia|]). constructor.
  - simpl. lia.
  - simpl. lia.
Defined.

Lemma codec_round_trip_squeezed_witness :
  (∃ bits, integers_to_bitstrings (NDArray [1] [5]%Z) (Some (Z.of_nat 3)) = Some bits
           ∧ bitstrings_to_integers bits = scalar 5%Z)
  ∧ (∃ bits, integers_to_bitstrings (NDArray [length [1; 0; 1]%Z] [1; 0; 1]%Z) (Some 1%Z)
             = Some bits
             ∧ shape bits = [length [1; 0; 1]%Z]
             ∧ bitstrings_to_integers bits
               = scalar (be_value ((λ x, x mod 2)%Z <$> [1; 0; 1]%Z))).
Proof.
  apply (codec_round_trip_squeezed 3 5 [1; 0; 1]%Z).
  - simpl. lia.
  - simpl. lia.
  - lia.
  - simpl. lia.
  - simpl. lia.
  - repeat (constructor; [unfold int32; lia|]). constructor.
Defined.

(** ** The inferred width *)

Section InferredWidth.
Local Open Scope Z_scope.

Lemma pow_sum_lower (x n : Z) :
  0 ≤ x → 0 ≤ n → x ^ n * (x + n) ≤ x * (x + 1) ^ n.
Proof.
  intros Hx Hn. revert n Hn.
  apply (natlike_ind (λ n, x ^ n * (x + n) ≤ x * (x + 1) ^ n)).
  - simpl. lia.
  - intros n Hn IH. rewrite !Z.pow_succ_r by lia.
    assert (0 ≤ x ^ n) by (apply Z.pow_nonneg; lia).
    assert (0 ≤ (x + 1) ^ n) by (apply Z.pow_nonneg; lia).
    nia.
Qed.

Lemma pow_sum_upper (x n : Z) :
  0 ≤ x → 0 ≤ n → (x + 1) ^ n * (x + 1 - n) ≤ (x + 1) * x ^ n.
Proof.
  intros Hx Hn. revert n Hn.
  apply (natlike_ind (λ n, (x + 1) ^ n * (x + 1 - n) ≤ (x + 1) * x ^ n)).
  - simpl. lia.
  - intros n Hn IH. rewrite !Z.pow_succ_r by lia.
    assert (0 ≤ x ^ n) by (apply Z.pow_nonneg; lia).
    assert (0 ≤ (x + 1) ^ n) by (apply Z.pow_nonneg; lia).
    nia.
Qed.

Lemma pow_succ_doubles (x n : Z) :
  0 < x → x + 1 ≤ n → 2 * x ^ n ≤ (x + 1) ^ n.
Proof.
  intros Hx Hn. pose proof (pow_sum_lower x n ltac:(lia) ltac:(lia)) as H.
  assert (0 ≤ x ^ n) by (apply Z.pow_nonneg; lia).
  nia.
Qed.

Lemma pow_succ_not_doubles (x n : Z) :
  0 ≤ x → 0 ≤ n → 2 * n < x + 1 → (x + 1) ^ n < 2 * x ^ n.
Proof.
  intros Hx Hn0 Hn. pose proof (pow_sum_upper x n Hx Hn0) as H.
  assert (0 < (x + 1) ^ n) by (apply Z.pow_pos_nonneg; lia).
  nia.
Qed.

(** The comparison inside [ceil_log2_eps], for an exponent [N]. *)
Lemma eps_test_pow2 (N k : Z) :
  0 ≤ N → 0 ≤ k → (2 * (2 ^ k) ^ N <=? 2 ^ (N * k)) = false.
Proof.
  intros HN Hk. rewrite <- Z.pow_mul_r by lia. rewrite (Z.mul_comm k).
  assert (0 < 2 ^ (N * k)) by (apply Z.pow_pos_nonneg; lia).
  apply Z.leb_gt. lia.
Qed.

Lemma eps_test_between (N m k : Z) :
  0 ≤ k → 2 ^ (k + 1) ≤ N → 2 ^ k < m < 2 ^ (k + 1) →
  (2 * m ^ N <=? 2 ^ (N * (k + 1))) = true.
Proof.
  intros Hk HN Hm. apply Z.leb_le.
  assert (0 < 2 ^ k) by (apply Z.pow_pos_nonneg; lia).
  rewrite (Z.mul_comm N), Z.pow_mul_r by lia.
  transitivity (2 * (2 ^ (k + 1) - 1) ^ N).
  - apply Z.mul_le_mono_nonneg_l; [lia|]. apply Z.pow_le_mono_l. lia.
  - pose proof (pow_succ_doubles (2 ^ (k + 1) - 1) N) as Hd.
    replace (2 ^ (k + 1) - 1 + 1) with (2 ^ (k + 1)) in Hd by lia.
    apply Hd; lia.
Qed.

Lemma eps_test_all_ones (N j : Z) :
  0 ≤ N → 0 ≤ j → 2 * N < 2 ^ j → (2 * (2 ^ j - 1) ^ N <=? 2 ^ (N * j)) = false.
Proof.
  intros HN Hj Hlt. apply Z.leb_gt.
  assert (0 < 2 ^ j) by (apply Z.pow_pos_nonneg; lia).
  pose proof (pow_succ_not_doubles (2 ^ j - 1) N) as Hd.
  replace (2 ^ j - 1 + 1) with (2 ^ j) in Hd by lia.
  rewrite (Z.mul_comm N), Z.pow_mul_r by lia. apply Hd; lia.
Qed.

Lemma ceil_log2_eps_small (m : Z) :
  1 ≤ m < 2 ^ 16 → ceil_log2_eps m = Finite (Z.log2 m + 1).
Proof.
  intros Hm. pose proof (Z.log2_spec m ltac:(lia)) as Hspec.
  pose proof (Z.log2_nonneg m) as Hnn.
  assert (Z.log2 m < 16) by (apply Z.log2_lt_pow2; lia).
  set (k := Z.log2 m) in *. rewrite <- Z.add_1_r in Hspec.
  assert (2 ^ (k + 1) ≤ 2 ^ 16) by (apply Z.pow_le_mono_r; lia).
  change (2 ^ 16) with 65536 in *.
  unfold ceil_log2_eps.
  destruct (Z.ltb_spec m 0) as [?|_]; [lia|].
  destruct (Z.eqb_spec m 0) as [?|_]; [lia|]. cbv zeta.
  destruct (decide (m = 2 ^ k)) as [Heq|Hne].
  - clearbody k. subst m. rewrite Z.log2_up_pow2 by done.
    by rewrite eps_test_pow2 by lia.
  - assert (Z.log2_up m = k + 1) as ->.
    { apply Z.log2_up_unique; [lia|]. replace (Z.pred (k + 1)) with k by lia. lia. }
    by rewrite eps_test_between by lia.
Qed.

Lemma ceil_log2_eps_all_ones (j : Z) :
  20 ≤ j → ceil_log2_eps (2 ^ j - 1) = Finite (j + 1).
Proof.
  intros Hj.
  assert (2 ^ 20 ≤ 2 ^ j) by (apply Z.pow_le_mono_r; lia).
  change (2 ^ 20) with 1048576 in *.
  assert (2 ^ j = 2 * 2 ^ Z.pred j) as Hp.
  { replace j with (Z.succ (Z.pred j)) at 1 by lia. apply Z.pow_succ_r. lia. }
  unfold ceil_log2_eps.
  destruct (Z.ltb_spec (2 ^ j - 1) 0) as [?|_]; [lia|].
  destruct (Z.eqb_spec (2 ^ j - 1) 0) as [?|_]; [lia|]. cbv zeta.
  assert (Z.log2_up (2 ^ j - 1) = j) as ->.
  { apply Z.log2_up_unique; lia. }
  by rewrite eps_test_all_ones by lia.
Qed.

(** X4: with [nbits] omitted and a maximum [mx] with [1 <= mx < 2^16], the
    inferred width is the number of binary digits of [mx]. *)
Theorem inferred_width_is_bit_length (a : ndarray Z) (mx : Z) :
  array_max (data a) = Some mx → 1 ≤ mx < 2 ^ 16 →
  integers_to_bitstrings a None = integers_to_bitstrings a (Some (Z.log2 mx + 1))
  ∧ 2 ^ Z.log2 mx ≤ mx < 2 ^ (Z.log2 mx + 1).
Proof.
  intros Hmax Hmx. split.
  - rewrite (integers_to_bitstrings_inferred a mx Hmax).
    rewrite ceil_log2_eps_small by done. cbn [astype_int].
    assert (0 ≤ Z.log2 mx < 16) as Hlog.
    { split; [apply Z.log2_nonneg|apply Z.log2_lt_pow2; lia]. }
    rewrite Z.add_simpl_r, wrap32_id; [done|]. unfold int32. lia.
  - rewrite Z.add_1_r. apply Z.log2_spec. lia.
Qed.

Lemma inferred_width_is_bit_length_witness :
  integers_to_bitstrings (NDArray [3%nat] [1; 0; 1]) None
  = integers_to_bitstrings (NDArray [3%nat] [1; 0; 1]) (Some (Z.log2 1 + 1))
  ∧ 2 ^ Z.log2 1 ≤ 1 < 2 ^ (Z.log2 1 + 1).
Proof.
  apply (inferred_width_is_bit_length (NDArray [3%nat] [1; 0; 1]) 1).
  - reflexivity.
  - lia.
Defined.

(** X5: with [nbits] omitted and a maximum [2^j - 1] with [j >= 20], the
    inferred width is [j + 1], one more than the [j] binary digits of the
    maximum: the added [1e-5] carries the logarithm over [j]. *)
Theorem inferred_width_one_too_many (a : ndarray Z) (j : Z) :
  array_max (data a) = Some (2 ^ j - 1) → 20 ≤ j →
  integers_to_bitstrings a None = integers_to_bitstrings a (Some (j + 1))
  ∧ Z.log2 (2 ^ j - 1) + 1 = j.
Proof.
  intros Hmax Hj. split.
  - destruct (decide (Forall int32 (data a))) as [Hint|Hbad];
      [|by rewrite !integers_to_bitstrings_overflow].
    assert (j < 32) as Hj32.
    { apply array_max_spec in Hmax as [Hin _].
      rewrite Forall_forall in Hint. specialize (Hint _ Hin). unfold int32 in Hint.
      destruct (decide (j < 32)) as [|Hge]; [done|].
      assert (2 ^ 32 ≤ 2 ^ j) by (apply Z.pow_le_mono_r; lia). lia. }
    rewrite (integers_to_bitstrings_inferred a _ Hmax).
    rewrite ceil_log2_eps_all_ones by done. cbn [astype_int].
    rewrite Z.add_simpl_r, wrap32_id; [done|]. unfold int32. lia.
  - assert (2 ^ 1 ≤ 2 ^ Z.pred j) by (apply Z.pow_le_mono_r; lia).
    change (2 ^ 1) with 2 in *.
    assert (2 ^ j = 2 * 2 ^ Z.pred j) as Hp.
    { replace j with (Z.succ (Z.pred j)) at 1 by lia. apply Z.pow_succ_r. lia. }
    assert (Z.log2 (2 ^ j - 1) = Z.pred j); [|lia].
    apply Z.log2_unique; [lia|]. rewrite Z.succ_pred. lia.
Qed.

Lemma inferred_width_one_too_many_witness :
  integers_to_bitstrings (scalar (2 ^ 20 - 1)) None
  = integers_to_bitstrings (scalar (2 ^ 20 - 1)) (Some (20 + 1))
  ∧ Z.log2 (2 ^ 20 - 1) + 1 = 20.
Proof.
  apply (inferred_width_one_too_many (scalar (2 ^ 20 - 1)) 20).
  - reflexivity.
  - lia.
Defined.
End InferredWidth.

(** ** Errors of the gate tensor assembler and of the evaluator *)

Lemma as_qubit_tensor_not_pow2 {K} (log2_trunc : nat → nat) (a : ndarray K) :
  (∀ n, size a ≠ 2 ^ n) → as_qubit_tensor log2_trunc a = None.
Proof.
  intros Hs. unfold as_qubit_tensor, int_log2, reshape.
  destruct (decide (size a = 0)) as [|Hz]; [done|]. cbn [mbind option_bind].
  rewrite decide_False; [done|]. rewrite size_of_replicate. intros Heq.
  by apply (Hs (log2_trunc (size a))).
Qed.

Section Errors.
Context {K R : Type} `{!Scalars K R}.
Variable log2_trunc : nat → nat.
Variable gates : string → option (ndarray K).

(** X6: a gate name that is not in the table, or a gate array whose size is not
    a power of two, anywhere in the sequence makes the assembler raise,
    whatever [int(jnp.log2(size))] gives. *)
Theorem get_gate_tensor_rejects (gate_seq : list (gate_spec K)) (gate : gate_spec K) :
  gate ∈ gate_seq →
  (gate_array gates gate = None
   ∨ ∃ arr, gate_array gates gate = Some arr ∧ ∀ n, size arr ≠ 2 ^ n) →
  get_gate_tensor log2_trunc gates gate_seq = None.
Proof.
  intros Hin Hbad. unfold get_gate_tensor.
  destruct (mapM (gate_array gates) gate_seq) as [arrs|] eqn:Hm; [|done].
  cbn [mbind option_bind].
  apply mapM_Some_1 in Hm.
  apply list_elem_of_lookup in Hin as [i Hi].
  destruct (Forall2_lookup_l _ _ _ _ _ Hm Hi) as (arr & Harr & Hga).
  destruct Hbad as [Hnone | (arr' & Hsome & Hsize)]; [congruence|].
  assert (arr' = arr) as -> by congruence.
  rewrite mapM_None_2; [done|].
  apply Exists_exists. exists arr. split; [by eapply list_elem_of_lookup_2|].
  by apply as_qubit_tensor_not_pow2.
Qed.

Lemma as_qubit_tensor_inv (a b : ndarray K) (n : nat) :
  size a = 2 ^ n → as_qubit_tensor log2_trunc a = Some b →
  log2_trunc (2 ^ n) = n ∧ b = NDArray (replicate n 2) (data a).
Proof.
  intros Hs. unfold as_qubit_tensor, int_log2, reshape. rewrite Hs.
  assert (2 ^ n ≠ 0) by (apply Nat.pow_nonzero; lia).
  rewrite decide_False by done. cbn [mbind option_bind].
  case_decide as Hsize; [|done]. intros [= <-].
  rewrite size_of_replicate in Hsize. apply Nat.pow_inj_r in Hsize; [|lia].
  by rewrite Hsize.
Qed.

(** X19: the assembler needs [int(jnp.log2(size))] to be exact at the size
    [4^k] of the product of [k] 2x2 matrices: when it is any other number
    the final reshape raises, although every gate is well formed. *)
Theorem gate_tensor_needs_exact_log (gate_seq : list (gate_spec K))
    (mats : list (ndarray K)) :
  gate_seq ≠ [] →
  Forall2 (λ gate m, gate_array gates gate = Some m ∧ shape m = [2; 2]) gate_seq mats →
  log2_trunc (2 ^ (2 * length gate_seq)) ≠ 2 * length gate_seq →
  get_gate_tensor log2_trunc gates gate_seq = None.
Proof.
  intros Hne Hres Hlog.
  assert (mapM (gate_array gates) gate_seq = Some mats) as Hm1.
  { apply mapM_Some_2. eapply Forall2_impl; [done|]. by intros ? ? [? _]. }
  assert (Forall (λ m, shape m = [2; 2]) mats) as Hsh.
  { apply Forall_forall. intros m Hm. apply list_elem_of_lookup in Hm as [j Hj].
    destruct (Forall2_lookup_r _ _ _ _ _ Hres Hj) as (g & _ & _ & Hs). done. }
  pose proof (Forall2_length _ _ _ Hres) as Hlen.
  unfold get_gate_tensor. rewrite Hm1. cbn [mbind option_bind].
  destruct (mapM (as_qubit_tensor log2_trunc) mats) as [arrs|] eqn:Hm2; [|done].
  cbn [mbind option_bind].
  assert (arrs = mats) as ->.
  { apply mapM_Some_1 in Hm2. symmetry. apply list_eq_Forall2.
    clear Hres Hm1 Hlen. revert arrs Hm2.
    induction Hsh as [|m mats Hm _ IH]; intros arrs Hm2.
    - apply Forall2_nil_inv_l in Hm2 as ->. constructor.
    - apply Forall2_cons_inv_l in Hm2 as (b & arrs' & Hb & Hrest & ->).
      constructor; [|by apply IH].
      apply (as_qubit_tensor_inv m b 2) in Hb as [_ ->]; [|unfold size; by rewrite Hm].
      destruct m as [sh dt]. simpl in *. by subst. }
  destruct mats as [|m0 rest]; [done|].
  destruct (foldl_kron_entries m0 rest Hsh) as [Hfsh _].
  destruct (as_qubit_tensor log2_trunc (foldl kron m0 rest)) as [T|] eqn:HT; [|done].
  apply (as_qubit_tensor_inv _ _ (2 * S (length rest))) in HT as [Hexact _].
  - simpl in Hlen. rewrite Hlen in Hlog. done.
  - unfold size. rewrite Hfsh. generalize (S (length rest)). intros k.
    simpl. rewrite Nat.mul_1_r, Nat.add_0_r. by rewrite Nat.pow_add_r.
Qed.

Lemma norm_axes_out_of_range (nd : nat) (q : list nat) (p : nat) :
  p ∈ q → nd ≤ p → norm_axes nd (Z.of_nat <$> q) = None.
Proof.
  intros Hp Hge. unfold norm_axes. apply mapM_None_2, Exists_exists.
  exists (Z.of_nat p). split; [by apply list_elem_of_fmap_2|].
  unfold norm_axis. by rewrite !decide_False by lia.
Qed.

Lemma tensordot_axis_out_of_range (a b : ndarray K) (axes_a : list Z)
    (q : list nat) (p : nat) :
  p ∈ q → ndim b ≤ p → tensordot a b axes_a (Z.of_nat <$> q) = None.
Proof.
  intros Hp Hge. unfold tensordot.
  rewrite (norm_axes_out_of_range _ _ _ Hp Hge).
  by destruct (norm_axes (ndim a) _).
Qed.

(** X7: a qubit index that is not below the rank of the statetensor makes
    the evaluation raise. *)
Theorem qubit_index_out_of_range (G psi : ndarray K) (q : list nat) (p : nat) :
  p ∈ q → ndim psi ≤ p → statetensor_to_single_expectation G q psi = None.
Proof.
  intros Hp Hge. unfold statetensor_to_single_expectation, statetensor_new.
  by rewrite (tensordot_axis_out_of_range _ _ _ _ _ Hp Hge).
Qed.

Lemma expectation_loop_None (l : list (R * (ndarray K → option (ndarray R))))
    (psi : ndarray K) :
  foldl (λ out cf, out ← out; e ← cf.2 psi; add_arrays out (scale cf.1 e)) None l = None.
Proof. induction l as [|x l IH]; [done|]. simpl. apply IH. Qed.

Lemma expectation_loop_fails (l : list (R * (ndarray K → option (ndarray R))))
    (psi : ndarray K) (acc : option (ndarray R)) (i : nat) (c : R)
    (f : ndarray K → option (ndarray R)) :
  l !! i = Some (c, f) → f psi = None →
  foldl (λ out cf, out ← out; e ← cf.2 psi; add_arrays out (scale cf.1 e)) acc l = None.
Proof.
  revert acc i. induction l as [|x l IH]; intros acc [|i] Hi Hf; simplify_eq/=.
  - rewrite Hf. destruct acc; apply expectation_loop_None.
  - by eapply IH.
Qed.

(** X8: qubit indices are not looked at when the function is built: once every
    gate sequence assembles, a function is returned whatever the qubit
    lists are; an index out of range in a term that is paired with a
    coefficient makes every later call raise. *)
Theorem qubit_indices_checked_on_call (terms : list (list (gate_spec K)))
    (tensors : list (ndarray K)) (qubits : list (list nat)) (coefficients : list R)
    (psi : ndarray K) (i p : nat) (c : R) (q : list nat) :
  Forall2 (λ t g, get_gate_tensor log2_trunc gates t = Some g) terms tensors →
  i < length terms → coefficients !! i = Some c → qubits !! i = Some q →
  p ∈ q → ndim psi ≤ p →
  ∃ f, get_statetensor_to_expectation_func log2_trunc gates terms qubits coefficients = Some f
       ∧ f psi = None.
Proof.
  intros Hall Hi Hc Hq Hp Hge.
  unfold get_statetensor_to_expectation_func.
  rewrite (apply_gate_funcs_Some _ _ _ _ _ Hall). cbn [mbind option_bind].
  eexists. split; [done|].
  rewrite (Forall2_length _ _ _ Hall) in Hi.
  destruct (lookup_lt_is_Some_2 tensors i Hi) as [g Hg].
  unfold statetensor_to_expectation_func.
  eapply (expectation_loop_fails _ _ _ i c).
  - rewrite lookup_zip_with, Hc. cbn [mbind option_bind].
    rewrite list_lookup_fmap, lookup_zip_with, Hg. cbn [mbind option_bind].
    rewrite Hq. reflexivity.
  - simpl. unfold statetensor_to_single_expectation, statetensor_new.
    by rewrite (tensordot_axis_out_of_range _ _ _ _ _ Hp Hge).
Qed.
End Errors.

Lemma get_gate_tensor_rejects_witness :
  get_gate_tensor exact_log2 pauli_gates [GateName "Z"; GateName "H"] = None.
Proof.
  apply (get_gate_tensor_rejects exact_log2 pauli_gates _ (GateName "H")).
  - apply (list_elem_of_lookup_2 _ 1). reflexivity.
  - left. reflexivity.
Defined.

Lemma gate_tensor_needs_exact_log_witness :
  get_gate_tensor short_log2 pauli_gates [GateName "Z"; GateArray pauli_X] = None.
Proof.
  apply (gate_tensor_needs_exact_log short_log2 pauli_gates
           [GateName "Z"; GateArray pauli_X] [pauli_Z; pauli_X]).
  - done.
  - repeat constructor.
  - vm_compute. lia.
Defined.

Lemma qubit_index_out_of_range_witness :
  statetensor_to_single_expectation pauli_Z [2] ket01 = None.
Proof.
  apply (qubit_index_out_of_range pauli_Z ket01 [2] 2).
  - compute_done.
  - vm_compute. lia.
Defined.

Lemma qubit_indices_checked_on_call_witness :
  ∃ f, get_statetensor_to_expectation_func exact_log2 pauli_gates terms_ex [[0; 1]; [5]] [3; 5]%Z
       = Some f
       ∧ f ket01 = None.
Proof.
  apply (qubit_indices_checked_on_call exact_log2 pauli_gates terms_ex [gate_ZZ; pauli_Z]
           [[0; 1]; [5]] [3; 5]%Z ket01 1 5 5%Z [5]).
  - repeat constructor.
  - simpl. lia.
  - reflexivity.
  - reflexivity.
  - compute_done.
  - vm_compute. lia.
Defined.

Lemma in_bounds_indices (s idx : list nat) : in_bounds idx s → idx ∈ indices s.
Proof.
  intros Hb. eapply list_elem_of_lookup_2. by apply indices_lookup_ravel.
Qed.

Lemma NoDup_indices (s : list nat) : NoDup (indices s).
Proof.
  induction s as [|d s IH]; simpl.
  - apply NoDup_singleton.
  - apply NoDup_bind; [| |apply NoDup_seq].
    + intros i j idx _ _ (? & -> & _)%list_elem_of_fmap (? & [= -> _] & _)%list_elem_of_fmap.
      done.
    + intros i _. apply NoDup_fmap_2; [|done]. by intros ?? [= ->].
Qed.

Lemma scatter_gather_same (q b : list nat) :
  Forall (λ p, p < length b) q → scatter q (gather b q) b = b.
Proof.
  intros Hq. apply list_eq. intros p.
  destruct (decide (p ∈ q)) as [Hp|Hp].
  - rewrite Forall_forall in Hq. specialize (Hq p Hp).
    rewrite scatter_lookup_gather by done. rewrite nth_lookup.
    by destruct (lookup_lt_is_Some_2 b p Hq) as [x ->].
  - by apply scatter_lookup_notin.
Qed.

Section Identity.
Context {K R : Type} `{!Scalars K R}.
Variable one : K.
Hypothesis cmul_one : ∀ x, cmul one x = x.
Hypothesis cmul_zero : ∀ x, cmul czero x = czero.
Hypothesis cadd_zero_l : ∀ x, cadd czero x = x.
Hypothesis cadd_zero_r : ∀ x, cadd x czero = x.

Lemma foldl_cadd_zeros (l : list K) (acc : K) :
  Forall (λ x, x = czero) l → foldl cadd acc l = acc.
Proof.
  intros Hl. revert acc. induction Hl as [|x l -> _ IH]; intros acc; [done|].
  simpl. by rewrite cadd_zero_r.
Qed.

(** A sum with a single non-zero term. *)
Lemma csum_single {A} (f : A → K) (l : list A) (x0 : A) :
  NoDup l → x0 ∈ l → (∀ y, y ∈ l → y ≠ x0 → f y = czero) →
  csum (f <$> l) = f x0.
Proof.
  intros Hnd Hin Hz. apply list_elem_of_split in Hin as (l1 & l2 & ->).
  apply NoDup_app in Hnd as (_ & Hdisj & Hnd2). apply NoDup_cons in Hnd2 as [Hx0 _].
  assert (Forall (λ x, x = czero) (f <$> l1)) as H1.
  { apply Forall_fmap, Forall_forall. intros y Hy. simpl. apply Hz.
    - apply elem_of_app. by left.
    - intros ->. apply (Hdisj x0 Hy). by left. }
  assert (Forall (λ x, x = czero) (f <$> l2)) as H2.
  { apply Forall_fmap, Forall_forall. intros y Hy. simpl. apply Hz.
    - apply elem_of_app. right. by right.
    - by intros ->. }
  unfold csum. rewrite fmap_app, fmap_cons, foldl_app. cbn [foldl].
  rewrite (foldl_cadd_zeros (f <$> l2)) by done.
  rewrite (foldl_cadd_zeros (f <$> l1)) by done.
  apply cadd_zero_l.
Qed.

Lemma identity_applied (q : list nat) (psi : ndarray K) (n : nat) (b : list nat) :
  Forall (λ p, p < n) q → in_bounds b (replicate n 2) →
  spec_gate_applied (identity_tensor czero one (length q)) q psi b
  = at_index czero psi b.
Proof.
  intros Hq Hb. apply in_bounds_replicate in Hb as [Hlen Hb2].
  assert (Forall (λ p, p < length b) q) as Hqb by (by rewrite Hlen).
  pose proof (gather_bounded b q 2 Hb2 Hqb) as Hgb.
  unfold spec_gate_applied.
  rewrite (csum_single _ _ (gather b q)).
  - unfold identity_tensor. rewrite at_build.
    + rewrite take_app_length', drop_app_length' by (by rewrite length_gather).
      rewrite decide_True by done. by rewrite cmul_one, scatter_gather_same.
    + apply in_bounds_replicate. split.
      * rewrite length_app, !length_gather. lia.
      * by apply Forall_app.
  - apply NoDup_indices.
  - apply in_bounds_indices, in_bounds_replicate. by rewrite length_gather.
  - intros c Hc Hne. apply elem_of_indices, in_bounds_replicate in Hc as [Hcl Hc2].
    unfold identity_tensor. rewrite at_build.
    + rewrite take_app_length', drop_app_length' by (by rewrite length_gather).
      rewrite decide_False by done. apply cmul_zero.
    + apply in_bounds_replicate. split.
      * rewrite length_app, length_gather. lia.
      * by apply Forall_app.
Qed.

(** X9: the expectation of the identity on any duplicate-free set of qubits is
    the squared norm of the statetensor, [Re (sum_b conj(psi[b]) * psi[b])]
    (so 1 for a normalised state), given that [0] and [1] are neutral for
    [+] and [*] and [0 * x = 0]. *)
Theorem identity_expectation_is_norm (q : list nat) (psi : ndarray K) (n : nat) :
  shape psi = replicate n 2 → wf psi → NoDup q → Forall (λ p, p < n) q →
  statetensor_to_single_expectation (identity_tensor czero one (length q)) q psi
  = Some (scalar (real (csum ((λ b, cmul (conj (at_index czero psi b))
                                      (at_index czero psi b))
                                <$> indices (shape psi))))).
Proof.
  intros Hpsi Hwf Hnd Hq.
  rewrite (statetensor_to_single_expectation_spec _ psi q n); [|done..].
  unfold spec_expectation. do 4 f_equal.
  apply list_fmap_ext. intros i b Hb.
  apply list_elem_of_lookup_2, elem_of_indices in Hb. rewrite Hpsi in Hb.
  by rewrite (identity_applied q psi n).
Qed.
End Identity.

Lemma identity_expectation_is_norm_witness :
  statetensor_to_single_expectation
    (identity_tensor czero (Gauss 1 0) (length [1])) [1] bell
  = Some (scalar (real (csum ((λ b, cmul (conj (at_index czero bell b))
                                      (at_index czero bell b))
                                <$> indices (shape bell))))).
Proof.
  apply (identity_expectation_is_norm (Gauss 1 0)) with (n := 2).
  - intros [a b]. unfold cmul. simpl. unfold gauss_mul. simpl. f_equal; lia.
  - intros [a b]. reflexivity.
  - intros [a b]. reflexivity.
  - intros [a b]. unfold cadd. simpl. unfold gauss_add. simpl. f_equal; lia.
  - reflexivity.
  - reflexivity.
  - compute_done.
  - compute_done.
Defined.

Example ex_identity_on_bell :
  statetensor_to_single_expectation
    (identity_tensor czero (Gauss 1 0) 1) [1] bell = Some (scalar 2%Z).
Proof. reflexivity. Qed.

Section SamplerDecode.
Context {K R : Type} `{!Scalars K R} {Key : Type}.

(** X10: when the draws of [random.choice] are [m] of the offered indices,
    decoding the sampled bitstrings gives the sampled integers (for [m]
    samples of [n] qubits, [m] and [n] other than 1), and the bitstrings
    have shape [(m, n)]. *)
Theorem sampled_bitstrings_decode (rc : Key → list Z → nat → list R → list Z)
    (key : Key) (psi : ndarray K) (m n : nat) :
  shape psi = replicate n 2 → m ≠ 1 → n ≠ 1 →
  length (data (sample_integers rc key psi m)) = m →
  Forall (λ v, v ∈ arange 0 (Z.of_nat (size psi)) 1)
    (data (sample_integers rc key psi m)) →
  ∃ bits, sample_bitstrings rc key psi m = Some bits
          ∧ shape bits = [m; n]
          ∧ bitstrings_to_integers bits = sample_integers rc key psi m.
Proof.
  intros Hpsi Hm Hn Hlen Hin.
  assert (ndim psi = n) as Hnd by (unfold ndim; by rewrite Hpsi, length_replicate).
  assert (size psi = 2 ^ n) as Hsize by (unfold size; by rewrite Hpsi, size_of_replicate).
  unfold sample_bitstrings. rewrite Hnd.
  assert (Forall int32 (data (sample_integers rc key psi m))) as Hint.
  { apply Forall_fmap, Forall_forall. intros v _. apply wrap32_int32. }
  set (draws := data (sample_integers rc key psi m)) in *.
  change (sample_integers rc key psi m) with (NDArray [m] draws).
  assert (Forall (λ v, 0 ≤ v < 2 ^ Z.of_nat n ∧ v < 2 ^ 31)%Z draws) as Hdraws.
  { apply Forall_forall. intros v Hv. rewrite Forall_forall in Hin, Hint.
    specialize (Hin v Hv). specialize (Hint v Hv). unfold int32 in Hint.
    rewrite Hsize in Hin.
    change (Z.of_nat (2 ^ n)) with (0 + Z.of_nat (2 ^ n))%Z in Hin.
    rewrite arange_up in Hin.
    apply list_elem_of_fmap in Hin as (i & -> & Hi%elem_of_seq).
    pose proof (Nat2Z.inj_pow 2 n) as Hpow. simpl in Hi.
    change (Z.of_nat 2) with 2%Z in Hpow. lia. }
  rewrite batch_encode; [|done..|].
  - eexists. split; [done|]. split; [done|].
    rewrite <- Hlen. apply batch_decode; [by rewrite Hlen|done].
  - eapply Forall_impl; [exact Hdraws|]. intros v Hv. simpl in Hv. lia.
Qed.
End SamplerDecode.

Lemma sampled_bitstrings_decode_witness :
  ∃ bits, sample_bitstrings last_outcome tt bell 3 = Some bits
          ∧ shape bits = [3; 2]
          ∧ bitstrings_to_integers bits = sample_integers last_outcome tt bell 3.
Proof.
  apply (sampled_bitstrings_decode last_outcome tt bell 3 2).
  - reflexivity.
  - lia.
  - lia.
  - reflexivity.
  - compute_done.
Defined.

Lemma arange_down_empty (n : Z) : (n ≤ 0)%Z → arange (n - 1) (-1) (-1) = [].
Proof.
  intros Hn. unfold arange. cbn [Z.ltb Z.compare].
  replace (Z.to_nat ((n - 1 - -1 - -1 - 1) / - -1)) with 0; [done|].
  change (- -1)%Z with 1%Z. rewrite Z.div_1_r. lia.
Qed.

Lemma bind_nil_blocks {A B} (l : list A) : l ≫= (λ _, @nil B) = [].
Proof. induction l as [|x l IH]; [done|]. by rewrite bind_cons, IH. Qed.

(** X11: when [integers_to_bitstrings] raises and when it returns nothing: a
    python integer outside the integer type raises, whatever [nbits] is;
    with [nbits] omitted an array without entries raises (the maximum of
    nothing); with [nbits <= 0] the call returns an array without
    entries. *)
Theorem integers_to_bitstrings_edge_cases (a : ndarray Z) (v nbits : Z)
    (width : option Z) :
  (¬ int32 v → integers_to_bitstrings (scalar v) width = None)
  ∧ (data a = [] → integers_to_bitstrings a None = None)
  ∧ (Forall int32 (data a) → (- 2 ^ 31 < nbits ≤ 0)%Z →
     integers_to_bitstrings a (Some nbits)
     = Some (squeeze (NDArray [size (atleast_1d a); 0] []))).
Proof.
  split; [|split].
  - intros Hv. apply integers_to_bitstrings_overflow.
    simpl. by rewrite Forall_singleton.
  - intros Ha. unfold integers_to_bitstrings, shift_amounts, as_int32.
    rewrite data_atleast_1d, Ha. rewrite decide_True by apply Forall_nil_2.
    cbn [mbind option_bind]. by rewrite data_atleast_1d, Ha.
  - intros Ha Hn. unfold integers_to_bitstrings, shift_amounts, as_int32.
    rewrite data_atleast_1d, decide_True by done. cbn [mbind option_bind].
    rewrite arange_down_empty by lia. cbn [fmap list_fmap length].
    by rewrite bind_nil_blocks.
Qed.

Lemma integers_to_bitstrings_edge_cases_witness :
  integers_to_bitstrings (scalar (- 2 ^ 31 - 1)%Z) (Some 4%Z) = None
  ∧ integers_to_bitstrings (NDArray [0] []) None = None
  ∧ integers_to_bitstrings (NDArray [2] [5; 6]%Z) (Some (-3)%Z)
    = Some (NDArray [2; 0] []).
Proof.
  destruct (integers_to_bitstrings_edge_cases
              (NDArray [0] []) (- 2 ^ 31 - 1) 0 (Some 4%Z)) as (H1 & H2 & _).
  destruct (integers_to_bitstrings_edge_cases
              (NDArray [2] [5; 6]%Z) 0 (-3) None) as (_ & _ & H3).
  split; [apply H1; unfold int32; lia|]. split; [apply H2; reflexivity|].
  apply H3; [|lia]. repeat (constructor; [unfold int32; lia|]). constructor.
Defined.

(** ** [circuit_tools]: gate labels *)

Lemma length_center (w : nat) (fill : N) (s : pystr) :
  length s ≤ w → length (center w fill s) = w.
Proof.
  intros Hs. unfold center. destruct (decide (w ≤ length s)); [lia|].
  rewrite !length_app, !length_replicate.
  remember (w - length s) as marg eqn:Hmarg.
  pose proof (Nat.div_mod_eq marg 2) as Hdm.
  pose proof (Nat.mod_upper_bound marg 2 ltac:(lia)) as Hmod.
  assert (marg / 2 + (if Nat.odd marg && Nat.odd w then 1 else 0) ≤ marg).
  { destruct (Nat.odd marg) eqn:Hodd; cbn [andb].
    - apply Nat.odd_spec in Hodd as [k Hk]. destruct (Nat.odd w); lia.
    - lia. }
  lia.
Qed.

(** X12: every gate label is exactly 7 characters long, whatever the gate name
    and the parameter indices. *)
Theorem gate_str_has_seven_characters (gate : gate_obj) (param_inds : list (option Z)) :
  length (_get_gate_str gate param_inds) = 7.
Proof.
  assert (length (lit ".") = 1) as Hdot by reflexivity.
  assert (length (lit "[.]") = 3) as Hbrackets by reflexivity.
  unfold _get_gate_str. apply length_center.
  repeat case_decide; rewrite ?length_app, ?length_take in *; lia.
Qed.

(** ** [circuit_tools]: padding *)

Lemma py_max_spec (l : list Z) (m : Z) :
  py_max l = Ok m → m ∈ l ∧ Forall (λ y, y ≤ m)%Z l.
Proof.
  destruct l as [|x l]; [done|]. intros [= <-].
  destruct (foldl_max_spec l x) as (Hin & Hle & Hall). split.
  - destruct Hin as [->|Hin]; [by left|by right].
  - by constructor.
Qed.

Lemma py_max_nonempty (l : list Z) : l ≠ [] → ∃ m, py_max l = Ok m.
Proof. destruct l; [done|]. intros _. by eexists. Qed.

Lemma length_extend_row (L : nat) (row : pystr) (b : bool) :
  length row ≤ L → length (extend_row L row b) = L.
Proof.
  intros Hl. unfold extend_row. case_decide; [|lia].
  destruct b; rewrite length_app, length_replicate; lia.
Qed.

Lemma extend_row_full (L : nat) (row : pystr) (b : bool) :
  L ≤ length row → extend_row L row b = row.
Proof. intros Hl. unfold extend_row. case_decide; [lia|done]. Qed.

Lemma extend_row_prefix (L : nat) (row : pystr) (b : bool) :
  ∃ pad, extend_row L row b = row ++ replicate pad (if b then dash else space).
Proof.
  unfold extend_row. case_decide.
  - destruct b; by eexists.
  - exists 0. by rewrite app_nil_r.
Qed.

Lemma pad_rows_Ok (rows : list pystr) :
  rows ≠ [] →
  ∃ L, py_max ((λ r, Z.of_nat (length r)) <$> rows) = Ok (Z.of_nat L)
       ∧ Forall (λ r, length r ≤ L) rows
       ∧ (∃ r, r ∈ rows ∧ length r = L).
Proof.
  intros Hne.
  destruct (py_max_nonempty ((λ r, Z.of_nat (length r)) <$> rows)) as [m Hm].
  { by destruct rows. }
  destruct (py_max_spec _ _ Hm) as [Hin Hall].
  apply list_elem_of_fmap in Hin as (r & -> & Hr).
  exists (length r). split; [done|]. split; [|by exists r].
  rewrite Forall_fmap in Hall. eapply Forall_impl; [exact Hall|].
  intros x Hx. simpl in Hx. lia.
Qed.

Lemma pad_rows_nonempty (rows : list pystr) :
  rows ≠ [] →
  ∃ out L, _pad_rows rows = Ok (out, replicate (length rows) true)
    ∧ length out = length rows
    ∧ Forall (λ r, length r = L) out
    ∧ Forall (λ r, length r ≤ L) rows ∧ (∃ r, r ∈ rows ∧ length r = L)
    ∧ ∀ i r, rows !! i = Some r →
        ∃ pad, out !! i
               = Some (r ++ replicate pad (if bool_decide (i mod 2 = 0)
                                           then dash else space)).
Proof.
  intros Hne.
  destruct (pad_rows_Ok rows Hne) as (L & Hmax & Hall & Hex).
  unfold _pad_rows. rewrite Hmax. cbn [mbind result_bind]. rewrite Nat2Z.id.
  eexists _, L. split; [done|]. split; [by rewrite length_imap|].
  split; [|split; [done|split; [done|]]].
  - apply Forall_forall. intros r' Hr'. apply list_elem_of_lookup in Hr' as [i Hi].
    rewrite list_lookup_imap in Hi.
    destruct (rows !! i) as [r|] eqn:Hr; [|done]. simpl in Hi. injection Hi as <-.
    apply length_extend_row. rewrite Forall_forall in Hall.
    by eapply Hall, list_elem_of_lookup_2.
  - intros i r Hr.
    destruct (extend_row_prefix L r (bool_decide (i mod 2 = 0))) as [pad Hpad].
    exists pad. rewrite list_lookup_imap, Hr. cbn [fmap option_fmap option_map].
    by rewrite Hpad.
Qed.

(** X13: [_pad_rows] raises on no rows; otherwise it keeps the number of
    rows, gives every row the length of the longest one by appending ['-']
    to the rows at even positions and [' '] to those at odd positions, and
    returns one [True] per row. *)
Theorem pad_rows_rectangular (rows : list pystr) :
  (rows = [] → _pad_rows rows = Raise ValueError)
  ∧ (rows ≠ [] →
     ∃ out L, _pad_rows rows = Ok (out, replicate (length rows) true)
       ∧ length out = length rows
       ∧ Forall (λ r, length r = L) out
       ∧ Forall (λ r, length r ≤ L) rows ∧ (∃ r, r ∈ rows ∧ length r = L)
       ∧ ∀ i r, rows !! i = Some r →
           ∃ pad, out !! i
                  = Some (r ++ replicate pad (if bool_decide (i mod 2 = 0)
                                              then dash else space))).
Proof.
  split.
  - by intros ->.
  - apply pad_rows_nonempty.
Qed.

Lemma pad_rows_rectangular_witness :
  ∃ out L, _pad_rows [lit "q0: --H"; lit "   "] = Ok (out, replicate 2 true)
    ∧ length out = 2
    ∧ Forall (λ r, length r = L) out.
Proof.
  destruct (pad_rows_rectangular [lit "q0: --H"; lit "   "]) as [_ H].
  destruct H as (out & L & H1 & H2 & H3 & _); [done|].
  exists out, L. split; [exact H1|]. split; [exact H2|exact H3].
Defined.

(** X14: padding rows that already have one length changes nothing. *)
Theorem pad_rows_idempotent (rows out : list pystr) (flags : list bool) :
  _pad_rows rows = Ok (out, flags) → _pad_rows out = Ok (out, flags).
Proof.
  intros Hpad. destruct (decide (rows = [])) as [->|Hne]; [done|].
  destruct (pad_rows_nonempty rows Hne) as (out' & L & Heq & Hlen & Hrect & _ & _ & _).
  rewrite Hpad in Heq. injection Heq as <- ->.
  assert (out ≠ []) as Hne' by (destruct out, rows; done).
  destruct (pad_rows_Ok out Hne') as (L' & Hmax & Hall & (r & Hr & HrL)).
  assert (L' = L) as ->.
  { rewrite Forall_forall in Hrect. rewrite <- (Hrect r Hr). done. }
  unfold _pad_rows. rewrite Hmax. cbn [mbind result_bind]. rewrite Nat2Z.id, Hlen.
  do 2 f_equal. apply list_eq. intros i. rewrite list_lookup_imap.
  destruct (out !! i) as [x|] eqn:Hx; [|done]. simpl. f_equal.
  apply extend_row_full. rewrite Forall_forall in Hrect.
  rewrite (Hrect x); [done|]. by eapply list_elem_of_lookup_2.
Qed.

Lemma pad_rows_idempotent_witness :
  _pad_rows [lit "q0: --H"; lit "       "]
  = Ok ([lit "q0: --H"; lit "       "], [true; true]).
Proof.
  apply (pad_rows_idempotent [lit "q0: --H"; lit "   "]). reflexivity.
Defined.

(** ** [circuit_tools]: the checks *)

Lemma bind_Ok {A B} (m : result A) (f : A → result B) (b : B) :
  m ≫= f = Ok b → ∃ a, m = Ok a ∧ f a = Ok b.
Proof. destruct m as [a|e]; [|done]. intros H. by exists a. Qed.

Lemma comprehension_Ok {A B} (f : A → result B) (l : list A) (ys : list B) :
  comprehension f l = Ok ys ↔ Forall2 (λ x y, f x = Ok y) l ys.
Proof.
  revert ys. induction l as [|x l IH]; intros ys; simpl.
  - split; [by intros [= <-]; constructor|]. by intros ->%Forall2_nil_inv_l.
  - split.
    + intros (y & Hy & (ys' & Hys & [= <-])%bind_Ok)%bind_Ok.
      constructor; [done|]. by apply IH.
    + intros (y & ys' & Hy & Hys & ->)%Forall2_cons_inv_l.
      rewrite Hy. cbn [mbind result_bind]. apply IH in Hys. by rewrite Hys.
Qed.

Lemma py_max_Ok_iff (l : list Z) : (∃ m, py_max l = Ok m) ↔ l ≠ [].
Proof.
  split; [by intros [m Hm] ->|apply py_max_nonempty].
Qed.

(** X15: [check_circuit] passes exactly when there are as many gates as qubit
    lists and, if [n_qubits] is given, there is at least one qubit list,
    none is empty and every index is below [n_qubits].  The length of
    [param_inds_seq] plays no part: the test compares it with itself. *)
Theorem check_circuit_accepts {G P P'} (gate_seq : list G) (qubit_inds_seq : list (list Z))
    (param_inds_seq : list P) (other_params : list P') (n_qubits : option Z) :
  (check_circuit gate_seq qubit_inds_seq param_inds_seq n_qubits = Ok ()
   ↔ length gate_seq = length qubit_inds_seq
     ∧ match n_qubits with
       | None => True
       | Some n => qubit_inds_seq ≠ []
                   ∧ Forall (λ qi, qi ≠ [] ∧ Forall (λ q, q < n)%Z qi) qubit_inds_seq
       end)
  ∧ check_circuit gate_seq qubit_inds_seq param_inds_seq n_qubits
    = check_circuit gate_seq qubit_inds_seq other_params n_qubits.
Proof.
  split.
  - unfold check_circuit. case_decide as Hlen.
    { split; [done|]. intros [Heq _]. destruct Hlen; done. }
    assert (length gate_seq = length qubit_inds_seq) as Heq.
    { destruct (decide (length gate_seq = length qubit_inds_seq)); [done|].
      destruct Hlen. by left. }
    destruct n_qubits as [n|]; [|done]. split.
    + intros (maxes & Hmaxes & (largest & Hl & Hn)%bind_Ok)%bind_Ok.
      case_decide as Hlt; [done|]. split; [done|].
      apply comprehension_Ok in Hmaxes.
      assert (maxes ≠ []) as Hne by (by intros ->).
      apply py_max_spec in Hl as [_ Hl].
      split.
      * intros ->. by apply Forall2_nil_inv_l in Hmaxes.
      * apply Forall_forall. intros qi Hqi.
        apply list_elem_of_lookup in Hqi as [i Hi].
        destruct (Forall2_lookup_l _ _ _ _ _ Hmaxes Hi) as (m & Hm & Hmax).
        split; [by intros ->|].
        apply py_max_spec in Hmax as [_ Hall]. eapply Forall_impl; [exact Hall|].
        intros q Hq. simpl in Hq. rewrite Forall_forall in Hl.
        assert (m ≤ largest)%Z by (eapply Hl; by eapply list_elem_of_lookup_2). lia.
    + intros (_ & Hne & Hall).
      assert (∃ maxes, Forall2 (λ x y, py_max x = Ok y) qubit_inds_seq maxes) as [maxes Hm].
      { clear Hne Hlen Heq. induction Hall as [|qi l [Hqi _] _ [ms IH]]; [by exists []|].
        destruct (py_max_nonempty qi Hqi) as [m Hm]. exists (m :: ms). by constructor. }
      rewrite (proj2 (comprehension_Ok _ _ _) Hm). cbn [mbind result_bind].
      destruct (py_max_nonempty maxes) as [largest Hl].
      { intros ->. apply Forall2_nil_inv_r in Hm. done. }
      rewrite Hl. cbn [mbind result_bind]. rewrite decide_False; [done|].
      apply py_max_spec in Hl as [Hin _].
      apply list_elem_of_lookup in Hin as [i Hi].
      destruct (Forall2_lookup_r _ _ _ _ _ Hm Hi) as (qi & Hqi & Hmax).
      apply py_max_spec in Hmax as [Hin _].
      rewrite Forall_forall in Hall.
      destruct (Hall qi) as [_ Hlt]; [by eapply list_elem_of_lookup_2|].
      rewrite Forall_forall in Hlt. specialize (Hlt _ Hin). lia.
  - unfold check_circuit.
    destruct (decide (length gate_seq = length qubit_inds_seq)) as [Heq|Hne].
    + by rewrite !decide_False by (intros [?|?]; done).
    + by rewrite !decide_True by (by left).
Qed.

Lemma check_circuit_accepts_witness :
  check_circuit circuit_gates circuit_qubits circuit_params (Some 2%Z) = Ok ()
  ∧ check_circuit circuit_gates circuit_qubits circuit_params (Some 2%Z)
    = check_circuit circuit_gates circuit_qubits (@nil unit) (Some 2%Z).
Proof.
  destruct (check_circuit_accepts circuit_gates circuit_qubits circuit_params
              (@nil unit) (Some 2%Z)) as [[_ H] H'].
  split; [|exact H']. apply H. split; [reflexivity|]. split; [done|].
  repeat (constructor; [split; [done|repeat (constructor; [lia|]); constructor]|]).
  constructor.
Defined.

(** ** [circuit_tools]: drawing *)

Lemma rows_extend_refl (rows : list pystr) : rows_extend rows rows.
Proof. split; [done|]. intros i r Hr. by exists r. Qed.

Lemma rows_extend_trans (r1 r2 r3 : list pystr) :
  rows_extend r1 r2 → rows_extend r2 r3 → rows_extend r1 r3.
Proof.
  intros [Hl1 H1] [Hl2 H2]. split; [congruence|]. intros i r Hr.
  destruct (H1 i r Hr) as (r' & Hr' & Hp). destruct (H2 i r' Hr') as (r'' & Hr'' & Hp').
  exists r''. split; [done|]. by etrans.
Qed.

Lemma for_each_rel {S A} (Rel : S → S → Prop) (l : list A) (body : S → A → result S)
    (s s' : S) :
  (∀ s, Rel s s) → (∀ s1 s2 s3, Rel s1 s2 → Rel s2 s3 → Rel s1 s3) →
  (∀ s x s', x ∈ l → body s x = Ok s' → Rel s s') →
  for_each l body s = Ok s' → Rel s s'.
Proof.
  intros Hrefl Htrans. revert s. induction l as [|x l IH]; intros s Hbody; simpl.
  - intros [= <-]. apply Hrefl.
  - intros (s1 & Hs1 & Hrest)%bind_Ok. apply (Htrans _ s1).
    + eapply Hbody; [by left|done].
    + apply IH; [|done]. intros s0 y s0' Hy. apply Hbody. by right.
Qed.

Lemma for_each_Ok_elem {S A} (l : list A) (body : S → A → result S) (s s' : S) (x : A) :
  for_each l body s = Ok s' → x ∈ l → ∃ s0 s1, body s0 x = Ok s1.
Proof.
  revert s. induction l as [|y l IH]; intros s; simpl; [by intros _ ?%elem_of_nil|].
  intros (s1 & Hs1 & Hrest)%bind_Ok [->|Hx]%elem_of_cons; [by eauto|].
  by eapply IH.
Qed.

Lemma py_range_spec (lo hi : Z) :
  py_range lo hi = (λ i : nat, (lo + Z.of_nat i)%Z) <$> seq 0 (Z.to_nat (hi - lo)).
Proof.
  unfold py_range, arange. cbn [Z.ltb Z.compare].
  replace ((hi - lo + 1 - 1) / 1)%Z with (hi - lo)%Z by (rewrite Z.div_1_r; lia).
  apply list_fmap_ext. intros i x _. simpl. lia.
Qed.

Lemma elem_of_py_range (lo hi x : Z) : x ∈ py_range lo hi ↔ (lo ≤ x < hi)%Z.
Proof.
  rewrite py_range_spec, list_elem_of_fmap. split.
  - intros (i & -> & Hi%elem_of_seq). lia.
  - intros Hx. exists (Z.to_nat (x - lo)). split; [lia|]. apply elem_of_seq. lia.
Qed.

Lemma setitem_extend (rows rows' : list pystr) (i : Z) (r x : pystr) :
  py_getitem rows i = Ok r → py_setitem rows i (r ++ x) = Ok rows' →
  rows_extend rows rows'.
Proof.
  unfold py_getitem, py_setitem.
  intros (j & Hj & Hget)%bind_Ok (j' & Hj' & [= <-])%bind_Ok.
  assert (j' = j) as -> by congruence.
  destruct (rows !! j) as [r0|] eqn:Hr0; [|done]. injection Hget as ->.
  split; [by rewrite length_insert|]. intros k rk Hk.
  destruct (decide (k = j)) as [->|Hne].
  - exists (r ++ x). split.
    + apply list_lookup_insert_eq. by eapply lookup_lt_Some.
    + assert (rk = r) as -> by congruence. by apply prefix_app_r.
  - exists rk. by rewrite list_lookup_insert_ne.
Qed.

Lemma pad_rows_extend (rows out : list pystr) (flags : list bool) :
  _pad_rows rows = Ok (out, flags) → rows_extend rows out.
Proof.
  intros Hpad. destruct (decide (rows = [])) as [->|Hne]; [done|].
  destruct (pad_rows_nonempty rows Hne) as (out' & L & Heq & Hlen & _ & _ & _ & Hpre).
  rewrite Hpad in Heq. injection Heq as <- _. split; [done|].
  intros i r Hr. destruct (Hpre i r Hr) as [pad Hout].
  eexists. split; [done|]. by apply prefix_app_r.
Qed.

Lemma draw_row_extend (g : pystr) (qi : list Z) (sep : Z) (st st' : list pystr * list bool)
    (row_ind : Z) :
  draw_row g qi sep st row_ind = Ok st' → rows_extend st.1 st'.1.
Proof.
  destruct st as [rows flags]. unfold draw_row.
  intros (target & _ & Hbody)%bind_Ok.
  repeat case_decide;
    apply bind_Ok in Hbody as (r & Hr & Hbody);
    apply bind_Ok in Hbody as (rows' & Hset & Hbody);
    try (apply bind_Ok in Hbody as (flags' & _ & Hbody));
    injection Hbody as <-; simpl; by eapply setitem_extend.
Qed.

Lemma draw_gate_extend (gate_str_seq : list pystr) (qubit_inds_seq : list (list Z))
    (sep : Z) (st st' : list pystr * list bool) (gate_ind : Z) :
  draw_gate gate_str_seq qubit_inds_seq sep st gate_ind = Ok st' →
  rows_extend st.1 st'.1.
Proof.
  destruct st as [rows flags]. unfold draw_gate.
  intros (g & _ & (qi & _ & (qi_min & _ & (qi_max & _ & (free & _ & Hrest)%bind_Ok)
    %bind_Ok)%bind_Ok)%bind_Ok)%bind_Ok.
  apply bind_Ok in Hrest as (st1 & Hst1 & Hloop).
  apply (rows_extend_trans _ st1.1).
  - destruct (forallb id free).
    + injection Hst1 as <-. apply rows_extend_refl.
    + destruct st1 as [out fl]. by eapply pad_rows_extend.
  - eapply (for_each_rel (λ s s', rows_extend s.1 s'.1)); [| | |exact Hloop].
    + intros s. apply rows_extend_refl.
    + intros s1 s2 s3. apply rows_extend_trans.
    + intros s x s' _. apply draw_row_extend.
Qed.

Lemma initial_rows_layout (qubit_min top sep : Z) :
  (qubit_min ≤ top)%Z →
  let rows := [qubit_label qubit_min sep]
              ++ (if decide (top - qubit_min + 1 > 1)%Z then
                    i ← py_range (qubit_min + 1) (top + 1);
                    [lit "   "; qubit_label i sep]
                  else []) in
  length rows = Z.to_nat (2 * (top - qubit_min) + 1)
  ∧ (∀ j : nat, (Z.of_nat j ≤ top - qubit_min)%Z →
       rows !! (2 * j) = Some (qubit_label (qubit_min + Z.of_nat j) sep))
  ∧ (∀ j : nat, (Z.of_nat j < top - qubit_min)%Z →
       rows !! (2 * j + 1) = Some (lit "   ")).
Proof.
  intros Hle rows.
  set (body := λ i : Z, [lit "   "; qubit_label i sep]).
  set (rest := py_range (qubit_min + 1) (top + 1) ≫= body).
  assert (rows = qubit_label qubit_min sep :: rest) as ->.
  { subst rows. case_decide as Hd; [done|]. subst rest.
    rewrite py_range_spec. replace (Z.to_nat (top + 1 - (qubit_min + 1))) with 0 by lia.
    done. }
  assert (∀ (i j : nat), j < 2 → (Z.of_nat i < top - qubit_min)%Z →
            rest !! (i * 2 + j) = body (qubit_min + 1 + Z.of_nat i)%Z !! j) as Hrest.
  { intros i j Hj Hi. subst rest.
    rewrite (lookup_bind_blocks body _ 2 i j) by done.
    rewrite py_range_spec, list_lookup_fmap, lookup_seq_lt by lia. done. }
  split; [|split].
  - simpl. subst rest. rewrite (length_bind_blocks body _ 2) by done.
    rewrite py_range_spec, length_fmap, length_seq. lia.
  - intros [|j] Hj.
    + simpl. do 2 f_equal. lia.
    + replace (2 * S j) with (S (j * 2 + 1)) by lia. simpl.
      rewrite Hrest by lia. simpl. do 2 f_equal. lia.
  - intros j Hj. replace (2 * j + 1) with (S (j * 2 + 0)) by lia. simpl.
    by rewrite Hrest by lia.
Qed.

(** The number of qubits that [print_circuit] infers is one more than the
    largest index in the qubit lists. *)
Lemma largest_index_spec (qubit_inds_seq : list (list Z)) (maxes : list Z)
    (largest : Z) :
  comprehension py_max qubit_inds_seq = Ok maxes → py_max maxes = Ok largest →
  (∃ qi, qi ∈ qubit_inds_seq ∧ largest ∈ qi)
  ∧ Forall (λ qi, Forall (λ x, x ≤ largest)%Z qi) qubit_inds_seq.
Proof.
  intros Hmaxes%comprehension_Ok [Hin Hall]%py_max_spec. split.
  - apply list_elem_of_lookup in Hin as [i Hi].
    destruct (Forall2_lookup_r _ _ _ _ _ Hmaxes Hi) as (qi & Hqi & Hmax).
    exists qi. split; [by eapply list_elem_of_lookup_2|].
    by apply py_max_spec in Hmax as [? _].
  - apply Forall_forall. intros qi Hqi.
    apply list_elem_of_lookup in Hqi as [i Hi].
    destruct (Forall2_lookup_l _ _ _ _ _ Hmaxes Hi) as (m & Hm & Hmax).
    apply py_max_spec in Hmax as [_ Hle]. eapply Forall_impl; [exact Hle|].
    intros x Hx. simpl in Hx. rewrite Forall_forall in Hall.
    assert (m ≤ largest)%Z by (eapply Hall; by eapply list_elem_of_lookup_2). lia.
Qed.

(** X16: what [print_circuit] returns (and prints) when it returns.  The
    number of qubits [n] is the given [n_qubits], or else one more than
    the largest index in the qubit lists; the last displayed qubit [top]
    is [n - 1], or [qubit_max] if that is smaller.  There is one row per
    displayed qubit and one between each two, all of one length; the row
    of the [j]-th displayed qubit begins with its label [q<i>: ] and the
    rows in between begin with three spaces. *)
Theorem print_circuit_layout (gate_seq : list gate_obj) (qubit_inds_seq : list (list Z))
    (param_inds_seq : list (list (option Z))) (n_qubits : option Z)
    (qubit_min : Z) (qubit_max : option Z) (gate_ind_min : Z) (gate_ind_max : option Z)
    (sep_length : Z) (out : list pystr) :
  print_circuit gate_seq qubit_inds_seq param_inds_seq n_qubits
    qubit_min qubit_max gate_ind_min gate_ind_max sep_length = Ok out →
  ∃ n top : Z,
    match n_qubits with
    | Some n' => n = n'
    | None => (∃ qi, qi ∈ qubit_inds_seq ∧ (n - 1)%Z ∈ qi)
              ∧ Forall (λ qi, Forall (λ x, x ≤ n - 1)%Z qi) qubit_inds_seq
    end
    ∧ top = match qubit_max with
            | None => (n - 1)%Z
            | Some m => Z.min (n - 1) m
            end
    ∧ (qubit_min ≤ top)%Z
    ∧ length out = Z.to_nat (2 * (top - qubit_min) + 1)
    ∧ (∃ L, Forall (λ r, length r = L) out)
    ∧ (∀ j : nat, (Z.of_nat j ≤ top - qubit_min)%Z →
         ∃ rest, out !! (2 * j)
                 = Some (qubit_label (qubit_min + Z.of_nat j) sep_length ++ rest))
    ∧ (∀ j : nat, (Z.of_nat j < top - qubit_min)%Z →
         ∃ rest, out !! (2 * j + 1) = Some (lit "   " ++ rest)).
Proof.
  unfold print_circuit. intros (_ & _ & Hrest)%bind_Ok.
  case_decide as Hg; [done|].
  apply bind_Ok in Hrest as (n & Hn & Hrest).
  set (top := match qubit_max with
              | None => (n - 1)%Z
              | Some m => Z.min (n - 1) m
              end) in *.
  case_decide as Hq; [done|].
  apply bind_Ok in Hrest as (st & Hloop & Hrest).
  apply bind_Ok in Hrest as ([padded flags] & Hpad & [= <-]).
  assert (qubit_min ≤ top)%Z as Hle by lia.
  destruct (initial_rows_layout qubit_min top sep_length Hle) as (Hlen & Heven & Hodd).
  cbv zeta in Hlen, Heven, Hodd.
  match type of Hloop with
  | for_each _ _ (?rows, _) = _ => set (rows0 := rows) in *
  end.
  assert (rows_extend rows0 st.1) as Hext1.
  { eapply (for_each_rel (λ s s', rows_extend s.1 s'.1)) in Hloop; [exact Hloop|..].
    - intros s. apply rows_extend_refl.
    - intros s1 s2 s3. apply rows_extend_trans.
    - intros s x s' _. apply draw_gate_extend. }
  pose proof (pad_rows_extend _ _ _ Hpad) as Hext2.
  destruct (rows_extend_trans _ _ _ Hext1 Hext2) as [Hlen' Hpre].
  exists n, top. split.
  { destruct n_qubits as [n'|]; [by injection Hn as ->|].
    apply bind_Ok in Hn as (maxes & Hmaxes & (largest & Hl & [= <-])%bind_Ok).
    rewrite Z.add_simpl_r. by apply (largest_index_spec _ maxes). }
  split; [done|]. split; [done|].
  split; [simpl; congruence|]. split.
  { destruct (pad_rows_nonempty st.1) as (out' & L & Heq & _ & Hrect & _).
    - destruct Hext1 as [Hl _]. intros Hnil. rewrite Hnil in Hl. simpl in Hl. lia.
    - rewrite Hpad in Heq. injection Heq as <- _. by exists L. }
  split.
  - intros j Hj. destruct (Hpre _ _ (Heven j Hj)) as (r' & Hr' & [rest ->]).
    by exists rest.
  - intros j Hj. destruct (Hpre _ _ (Hodd j Hj)) as (r' & Hr' & [rest ->]).
    by exists rest.
Qed.

Lemma print_circuit_layout_witness :
  ∃ out, print_circuit circuit_gates circuit_qubits circuit_params None 0 None 0 None 1
         = Ok out
         ∧ length out = 3
         ∧ ∃ L, Forall (λ r, length r = L) out.
Proof.
  eexists. split; [vm_compute; reflexivity|].
  edestruct (print_circuit_layout circuit_gates circuit_qubits circuit_params
               None 0 None 0 None 1) as (n & top & _ & _ & _ & Hlen & Hrect & _).
  - vm_compute. reflexivity.
  - split; [reflexivity | exact Hrect].
Defined.

(** X17: with a [param_inds_seq] shorter than [gate_seq], printing the whole
    circuit (from gate 0, no upper limit) never returns rows: if nothing
    raises earlier, looking up the label of the first gate without
    parameter indices does. *)
Theorem print_circuit_needs_params (gate_seq : list gate_obj) (qubit_inds_seq : list (list Z))
    (param_inds_seq : list (list (option Z))) (n_qubits : option Z)
    (qubit_min : Z) (qubit_max : option Z) (sep_length : Z) :
  length param_inds_seq < length gate_seq →
  ∃ e, print_circuit gate_seq qubit_inds_seq param_inds_seq n_qubits
         qubit_min qubit_max 0 None sep_length = Raise e.
Proof.
  intros Hshort.
  destruct (print_circuit gate_seq qubit_inds_seq param_inds_seq n_qubits
              qubit_min qubit_max 0 None sep_length) as [out|e] eqn:Hprint;
    [exfalso|by exists e].
  unfold print_circuit in Hprint. apply bind_Ok in Hprint as (_ & _ & Hrest).
  case_decide as Hg; [done|].
  apply bind_Ok in Hrest as (n & Hn & Hrest).
  case_decide as Hq; [done|].
  apply bind_Ok in Hrest as (st & Hloop & _).
  destruct (for_each_Ok_elem _ _ _ _ (Z.of_nat (length param_inds_seq)) Hloop)
    as ([rows flags] & s1 & Hbody).
  { apply elem_of_py_range. lia. }
  unfold draw_gate in Hbody. apply bind_Ok in Hbody as (g & Hg' & _).
  unfold py_getitem in Hg'. apply bind_Ok in Hg' as (j & Hj & _).
  unfold py_position in Hj.
  rewrite length_zip_with in Hj.
  destruct (Z.ltb_spec (Z.of_nat (length param_inds_seq)) 0); [lia|].
  by rewrite decide_False in Hj by lia.
Qed.

Lemma print_circuit_needs_params_witness :
  ∃ e, print_circuit circuit_gates circuit_qubits (take 2 circuit_params) None
         0 None 0 None 1 = Raise e.
Proof.
  apply (print_circuit_needs_params circuit_gates circuit_qubits (take 2 circuit_params)).
  simpl. lia.
Defined.

(** X18: an empty circuit cannot be printed: with [gate_ind_min >= 0] the call
    raises [TypeError], or [ValueError] from the maximum of no qubit
    lists. *)
Theorem print_circuit_empty (qubit_inds_seq : list (list Z))
    (param_inds_seq : list (list (option Z))) (n_qubits : option Z)
    (qubit_min : Z) (qubit_max : option Z) (gate_ind_min : Z) (gate_ind_max : option Z)
    (sep_length : Z) :
  (0 ≤ gate_ind_min)%Z →
  print_circuit [] qubit_inds_seq param_inds_seq n_qubits
    qubit_min qubit_max gate_ind_min gate_ind_max sep_length
  = Raise (if decide (qubit_inds_seq = [] ∧ is_Some n_qubits) then ValueError
           else TypeError).
Proof.
  intros Hmin. unfold print_circuit, check_circuit.
  destruct qubit_inds_seq as [|qi qs].
  - rewrite (decide_False (P := _ ∨ _)) by (intros [?|?]; done).
    destruct n_qubits as [n|].
    + by rewrite (decide_True (P := _ ∧ _)) by (split; [done|by eexists]).
    + rewrite (decide_False (P := _ ∧ _)) by (intros [_ H]; by apply is_Some_None in H).
      cbn [mbind result_bind]. rewrite decide_True; [done|].
      destruct gate_ind_max; simpl; lia.
  - rewrite (decide_True (P := _ ∨ _)) by (by left). cbn [mbind result_bind].
    by rewrite (decide_False (P := _ ∧ _)) by (by intros [? _]).
Qed.

Lemma print_circuit_empty_witness :
  print_circuit [] [] [] (Some 2%Z) 0 None 0 None 1 = Raise ValueError.
Proof.
  apply (print_circuit_empty [] [] (Some 2%Z) 0 None 0 None 1). lia.
Defined.
